(** * Barycentric coordinates over regular polygons: a model of coordinates.py

    The functions [project_pointline], [bary2cart], [lattice], [polycorners]
    and [baryedges] of coordinates.py are embedded as Rocq functions.

    Modelling conventions.
    - A numpy float64 is a value of [npfloat]: a finite value carrying an
      exact real number, or one of the IEEE special values +inf, -inf, nan.
      Finite arithmetic is exact (rounding, overflow, underflow and the sign
      of zero are not modelled); the special values follow IEEE 754, so that
      numpy's division by zero, which returns nan or inf and does not raise,
      is represented as it behaves.
    - Because finite arithmetic cannot overflow or underflow here, a
      statement whose conclusion would fail when float64 overflows or
      underflows restricts the caller-supplied numbers to a range in which
      float64 does neither ([moderate], [in_range], [sum_max]).  What
      float64 does outside that range is shown on the same expressions
      evaluated in IEEE binary64 ([Binary64]).
    - Python's own float division ([float(i) / ncorners], [1. / ncorners])
      raises ZeroDivisionError on a zero divisor: [py_div].
    - A Python call either returns a value or raises: [outcome].
    - A 1-D array is a list of [npfloat]; a 2-D array is a list of rows.
      Elementwise operations follow numpy's broadcasting of 1-D operands and
      raise ValueError on incompatible shapes.
    - Corner counts are natural numbers. *)

From Stdlib Require Import Floats.
From Stdlib Require Import String.
From Stdlib Require Import Reals Lra Lia List PeanoNat Bool Permutation.
Import ListNotations.

Open Scope R_scope.

(** ** Exceptions and outcomes *)

Inductive exn : Type :=
| ZeroDivisionError
| ValueError
| IndexError.

Inductive outcome (A : Type) : Type :=
| Returns (a : A)
| Raises (e : exn).

Arguments Returns {A} a.
Arguments Raises {A} e.

Definition bind {A B : Type} (m : outcome A) (k : A -> outcome B) : outcome B :=
  match m with
  | Returns a => k a
  | Raises e => Raises e
  end.

Notation "x <- m ;; k" := (bind m (fun x => k))
  (at level 61, m at next level, right associativity).

Fixpoint mapM {A B : Type} (f : A -> outcome B) (l : list A) : outcome (list B) :=
  match l with
  | [] => Returns []
  | a :: l' =>
      b <- f a ;;
      bs <- mapM f l' ;;
      Returns (b :: bs)
  end.

Definition raises {A : Type} (m : outcome A) : Prop :=
  exists e, m = Raises e.

(** ** Floating-point values *)

Inductive npfloat : Type :=
| Fin (r : R)
| PInf
| NInf
| NaN.

Definition fopp (x : npfloat) : npfloat :=
  match x with
  | Fin a => Fin (- a)
  | PInf => NInf
  | NInf => PInf
  | NaN => NaN
  end.

Definition fadd (x y : npfloat) : npfloat :=
  match x, y with
  | Fin a, Fin b => Fin (a + b)
  | NaN, _ | _, NaN => NaN
  | PInf, NInf | NInf, PInf => NaN
  | PInf, _ | _, PInf => PInf
  | NInf, _ | _, NInf => NInf
  end.

Definition fsub (x y : npfloat) : npfloat := fadd x (fopp y).

(** The infinity of the sign of [s * r]; nan when [r] is zero. *)
Definition inf_times (s : bool) (r : R) : npfloat :=
  if Req_dec_T r 0 then NaN
  else if Rlt_dec 0 r then (if s then PInf else NInf)
       else (if s then NInf else PInf).

Definition fmul (x y : npfloat) : npfloat :=
  match x, y with
  | Fin a, Fin b => Fin (a * b)
  | NaN, _ | _, NaN => NaN
  | PInf, Fin b => inf_times true b
  | NInf, Fin b => inf_times false b
  | Fin a, PInf => inf_times true a
  | Fin a, NInf => inf_times false a
  | PInf, PInf | NInf, NInf => PInf
  | PInf, NInf | NInf, PInf => NInf
  end.

(** numpy's division: a zero divisor gives nan or an infinity, never an
    exception. *)
Definition fdiv (x y : npfloat) : npfloat :=
  match x, y with
  | Fin a, Fin b =>
      if Req_dec_T b 0 then inf_times true a else Fin (a / b)
  | NaN, _ | _, NaN => NaN
  | Fin _, PInf | Fin _, NInf => Fin 0
  | PInf, Fin b => if Rlt_dec b 0 then NInf else PInf
  | NInf, Fin b => if Rlt_dec b 0 then PInf else NInf
  | PInf, PInf | PInf, NInf | NInf, PInf | NInf, NInf => NaN
  end.

Definition fsqrt (x : npfloat) : npfloat :=
  match x with
  | Fin a => if Rlt_dec a 0 then NaN else Fin (sqrt a)
  | PInf => PInf
  | NInf | NaN => NaN
  end.

Definition fcos (x : npfloat) : npfloat :=
  match x with
  | Fin a => Fin (cos a)
  | _ => NaN
  end.

Definition fsin (x : npfloat) : npfloat :=
  match x with
  | Fin a => Fin (sin a)
  | _ => NaN
  end.

Definition np_pi : npfloat := Fin PI.

(** [float(i)] for a non-negative Python int. *)
Definition float (i : nat) : npfloat := Fin (INR i).

(** Python's [x / y] on a float and a number: a zero divisor raises. *)
Definition py_div (x y : npfloat) : outcome npfloat :=
  match y with
  | Fin b => if Req_dec_T b 0 then Raises ZeroDivisionError else Returns (fdiv x y)
  | _ => Returns (fdiv x y)
  end.

Definition npfloat_eq_dec (x y : npfloat) : {x = y} + {x <> y}.
Proof.
  destruct x as [a| | |], y as [b| | |];
    try (left; reflexivity); try (right; discriminate).
  destruct (Req_dec_T a b) as [E|N].
  - left; now subst.
  - right; intros H; injection H; exact N.
Defined.

(** ** Arrays *)

Definition vec : Type := list npfloat.
Definition matrix : Type := list vec.

Fixpoint map2 {A B C : Type} (f : A -> B -> C) (u : list A) (v : list B) : list C :=
  match u, v with
  | a :: u', b :: v' => f a b :: map2 f u' v'
  | _, _ => []
  end.

(** An elementwise binary operation on two 1-D arrays, with numpy's
    broadcasting: equal lengths, or one operand of length one. *)
Definition broadcast (f : npfloat -> npfloat -> npfloat) (u v : vec) : outcome vec :=
  if (length u =? length v)%nat then Returns (map2 f u v)
  else match u, v with
       | [x], _ => Returns (map (f x) v)
       | _, [y] => Returns (map (fun x => f x y) u)
       | _, _ => Raises ValueError
       end.

Definition vadd : vec -> vec -> outcome vec := broadcast fadd.
Definition vsub : vec -> vec -> outcome vec := broadcast fsub.
Definition vmul : vec -> vec -> outcome vec := broadcast fmul.

(** [s * v] and [v / s] for a scalar [s]. *)
Definition scale (s : npfloat) (v : vec) : vec := map (fmul s) v.
Definition vdiv_scalar (v : vec) (s : npfloat) : vec := map (fun x => fdiv x s) v.

(** [np.sum] of a 1-D array (0.0 for the empty array). *)
Definition np_sum (v : vec) : npfloat := fold_right fadd (Fin 0) v.

(** [np.dot] of two 1-D arrays: the lengths must agree. *)
Definition np_dot (u v : vec) : outcome npfloat :=
  if (length u =? length v)%nat then Returns (np_sum (map2 fmul u v))
  else Raises ValueError.

(** [np.linalg.norm(v, 2)] of a 1-D array. *)
Definition norm2 (v : vec) : npfloat := fsqrt (np_sum (map (fun x => fmul x x) v)).

(** [a[i]] for an index in range; IndexError otherwise. *)
Definition getitem {A : Type} (l : list A) (i : nat) : outcome A :=
  match nth_error l i with
  | Some a => Returns a
  | None => Raises IndexError
  end.

(** [range(n)] and [range(lo, hi)]. *)
Definition range (n : nat) : list nat := seq 0 n.
Definition range2 (lo hi : nat) : list nat := seq lo (hi - lo).

(** ** polycorners *)

(** For [i] in [range(ncorners)]:
    [angle = (float(i) / ncorners) * (np.pi * 2) + (np.pi / 2)],
    [x = center[0] + np.cos(angle) * 0.5],
    [y = center[1] + np.sin(angle) * 0.5]; the points are collected in
    order. *)
Definition polycorners (ncorners : nat) : outcome matrix :=
  let center := [Fin 0.5; Fin 0.5] in
  mapM (fun i =>
          q <- py_div (float i) (float ncorners) ;;
          h <- py_div np_pi (Fin 2) ;;
          let angle := fadd (fmul q (fmul np_pi (Fin 2))) h in
          c0 <- getitem center 0 ;;
          c1 <- getitem center 1 ;;
          let x := fadd c0 (fmul (fcos angle) (Fin 0.5)) in
          let y := fadd c1 (fmul (fsin angle) (Fin 0.5)) in
          Returns [x; y])
       (range ncorners).

(** ** project_pointline *)

(** [a + (np.dot(p - a, b - a) / np.dot(b - a, b - a)) * (b - a)]; the
    quotient of the two dot products is a division of numpy scalars. *)
Definition project_pointline (p a b : vec) : outcome vec :=
  pa <- vsub p a ;;
  ba <- vsub b a ;;
  num <- np_dot pa ba ;;
  ba' <- vsub b a ;;
  ba'' <- vsub b a ;;
  den <- np_dot ba' ba'' ;;
  d <- vsub b a ;;
  vadd a (scale (fdiv num den) d).

(** ** bary2cart *)

(** The argument [bary]: one coordinate (a 1-D array) or several rows (a
    2-D array). *)
Inductive ndarray : Type :=
| Arr1 (v : vec)
| Arr2 (m : matrix).

Definition ncols (m : matrix) : nat := length (hd [] m).

(** [bary.shape[-1]] *)
Definition shape_last (a : ndarray) : nat :=
  match a with
  | Arr1 v => length v
  | Arr2 m => ncols m
  end.

Definition column (j : nat) (m : matrix) : vec := map (fun row => nth j row NaN) m.

(** [m.T] of a 2-D array, as the list of its columns. *)
Definition transpose (m : matrix) : matrix := map (fun j => column j m) (range (ncols m)).

Definition compatible (n m : nat) : bool :=
  (n =? m)%nat || (n =? 1)%nat || (m =? 1)%nat.

(** [np.sum(b / np.sum(b) * corners.T, axis=1)], the expression of both
    branches of bary2cart.  An empty [corners] is a 1-D array, which has no
    axis 1. *)
Definition bary2cart_row (b : vec) (corners : matrix) : outcome vec :=
  let w := vdiv_scalar b (np_sum b) in
  match corners with
  | [] => Raises ValueError
  | _ :: _ =>
      if compatible (length w) (length corners) then
        prods <- mapM (fun col => vmul w col) (transpose corners) ;;
        Returns (map np_sum prods)
      else Raises ValueError
  end.

(** [corners] defaults to [None], which stands for
    [polycorners(bary.shape[-1])]. *)
Definition bary2cart (bary : ndarray) (corners : option matrix) : outcome ndarray :=
  cs <- match corners with
        | None => polycorners (shape_last bary)
        | Some c => Returns c
        end ;;
  match bary with
  | Arr2 rows =>
      r <- mapM (fun b => bary2cart_row b cs) rows ;;
      Returns (Arr2 r)
  | Arr1 b =>
      r <- bary2cart_row b cs ;;
      Returns (Arr1 r)
  end.

(** ** lattice *)

Fixpoint foldM {A S : Type} (f : S -> A -> outcome S) (l : list A) (s : S) : outcome S :=
  match l with
  | [] => Returns s
  | a :: l' => s' <- f s a ;; foldM f l' s'
  end.

(** [np.identity(n)]: row [i] is the unit vector of axis [i]. *)
Definition unit_vec (n i : nat) : vec :=
  map (fun j => if (i =? j)%nat then Fin 1 else Fin 0) (range n).

Definition identity (n : nat) : matrix := map (unit_vec n) (range n).

(** The index pairs of [for i in range(n): for j in range(i + 1, n)]. *)
Definition pairs (n : nat) : list (nat * nat) :=
  flat_map (fun i => map (fun j => (i, j)) (range2 (i + 1) n)) (range n).

Definition vec_eq_dec : forall u v : vec, {u = v} + {u <> v} :=
  list_eq_dec npfloat_eq_dec.

(** [set(tuple(c) for c in coords)]: one representative of each value.  The
    iteration order of a Python set is unspecified; only membership and the
    number of elements of the result are meaningful.  (Two nan entries count
    as equal here; the coordinates of a lattice are all finite.) *)
Definition unique (coords : matrix) : matrix := nodup vec_eq_dec coords.

Definition lattice (ncorners : nat) (sides : bool) : outcome matrix :=
  (* 1. Corners. *)
  let coords := identity ncorners in
  (* 2. Center. *)
  c <- py_div (Fin 1) (float ncorners) ;;
  let center := repeat c ncorners in
  let coords := coords ++ [center] in
  (* 3. (coords[i] + coords[j] + center) / 3 for i < j *)
  coords <- foldM (fun coords '(i, j) =>
                     ci <- getitem coords i ;;
                     cj <- getitem coords j ;;
                     s <- vadd ci cj ;;
                     s <- vadd s center ;;
                     Returns (coords ++ [vdiv_scalar s (Fin 3)]))
                  (pairs ncorners) coords ;;
  (* 4. (coords[i] + center) / 2 *)
  coords <- foldM (fun coords i =>
                     ci <- getitem coords i ;;
                     s <- vadd ci center ;;
                     Returns (coords ++ [vdiv_scalar s (Fin 2)]))
                  (range ncorners) coords ;;
  (* 5. Sides: (coords[i] + coords[j]) / 2 for i < j *)
  coords <- (if sides then
               foldM (fun coords '(i, j) =>
                        ci <- getitem coords i ;;
                        cj <- getitem coords j ;;
                        s <- vadd ci cj ;;
                        Returns (coords ++ [vdiv_scalar s (Fin 2)]))
                     (pairs ncorners) coords
             else Returns coords) ;;
  (* Unique coordinates. *)
  Returns (unique coords).

(** ** baryedges *)

(** [np.arange(d)] and [np.roll(a, 1)]. *)
Definition arange (d : nat) : list nat := seq 0 d.

Definition roll1 {A : Type} (l : list A) : list A :=
  match rev l with
  | [] => []
  | x :: r => x :: rev r
  end.

(** [l[i] = x] for an index in range; IndexError otherwise. *)
Fixpoint setitem {A : Type} (l : list A) (i : nat) (x : A) : outcome (list A) :=
  match l, i with
  | [], _ => Raises IndexError
  | _ :: l', O => Returns (x :: l')
  | a :: l', S i' => r <- setitem l' i' x ;; Returns (a :: r)
  end.

(** The index pairs [izip(np.arange(d), np.roll(np.arange(d), 1))]. *)
Definition edges (d : nat) : list (nat * nat) :=
  combine (arange d) (roll1 (arange d)).

(** [np.zeros((d, d))] *)
Definition zeros (d : nat) : matrix := repeat (repeat (Fin 0) d) d.

(** One iteration of the loop of baryedges on the edge [(i1, i2)]. *)
Definition edge_step (cart : vec) (corners : matrix) (e : matrix) (i : nat * nat)
  : outcome matrix :=
  let '(i1, i2) := i in
  a <- getitem corners i1 ;;
  b <- getitem corners i2 ;;
  proj <- project_pointline cart a b ;;
  da <- vsub a proj ;;
  db <- vsub b proj ;;
  let distances := [norm2 da; norm2 db] in
  let vals := map (fsub (np_sum distances)) distances in
  (* e[i1, (i1, i2)] = vals *)
  row <- getitem e i1 ;;
  v0 <- getitem vals 0 ;;
  row <- setitem row i1 v0 ;;
  v1 <- getitem vals 1 ;;
  row <- setitem row i2 v1 ;;
  setitem e i1 row.

(** [coords] is one coordinate; [d = len(coords)] is the number of edges. *)
Definition baryedges (coords : vec) : outcome matrix :=
  let d := length coords in
  corners <- polycorners d ;;
  c <- bary2cart (Arr1 coords) (Some corners) ;;
  match c with
  | Arr1 cart =>
      let e := zeros d in
      foldM (edge_step cart corners) (edges d) e
  | Arr2 _ => Raises ValueError
  end.

(** ** verttext *)

(** [np.abs] on a scalar, and the tests [s == 0] and [s > 0] on a numpy
    scalar (both false on nan). *)
Definition fabs (x : npfloat) : npfloat :=
  match x with
  | Fin a => Fin (Rabs a)
  | PInf | NInf => PInf
  | NaN => NaN
  end.

Definition feq0 (x : npfloat) : bool :=
  match x with
  | Fin a => if Req_dec_T a 0 then true else false
  | _ => false
  end.

Definition fgt0 (x : npfloat) : bool :=
  match x with
  | Fin a => if Rlt_dec 0 a then true else false
  | PInf => true
  | _ => false
  end.

(** The arguments of one call of [pp.text]. *)
Record text_call : Type := {
  text_x : npfloat;
  text_y : npfloat;
  text_s : string;
  text_ha : string;
  text_va : string;
  text_color : string
}.

(** verttext computes the position of a label and draws it with one call
    of [pp.text]; the call is the result here.  [vert = pt - center] is a
    new array, so [pt] is not modified by [vert /= s] and [vert *= dist]. *)
Definition verttext (pt : vec) (txt : string) (center : vec) (dist : npfloat)
           (color : string) : outcome text_call :=
  vert <- vsub pt center ;;
  let s := np_sum (map fabs vert) in
  let vert := if feq0 s then [Fin 0; Fin 1] else vdiv_scalar vert s in
  let vert := map (fun x => fmul x dist) vert in
  p0 <- getitem pt 0 ;;
  v0 <- getitem vert 0 ;;
  p1 <- getitem pt 1 ;;
  v1 <- getitem vert 1 ;;
  Returns {| text_x := fadd p0 v0;
             text_y := fadd p1 v1;
             text_s := txt;
             text_ha := "center";
             text_va := "center";
             text_color := color |}.

(** The defaults [center=[.5,.5]], [dist=1./15], [color='red']. *)
Definition verttext_default (pt : vec) (txt : string) : outcome text_call :=
  verttext pt txt [Fin 0.5; Fin 0.5] (Fin (1 / 15)) "red".

(** ** polyshow: the Cartesian coordinates it plots *)

(** The loop [for coord in coords: if np.sum(coord) > 0: coord /= np.sum(coord)]
    on one row. *)
Definition normalize_row (coord : vec) : vec :=
  if fgt0 (np_sum coord) then vdiv_scalar coord (np_sum coord) else coord.

(** [coords = np.array(coords)]; [if len(coords.shape) < 2: coords = [coords]]. *)
Definition rows_of (a : ndarray) : matrix :=
  match a with
  | Arr1 v => [v]
  | Arr2 m => m
  end.

(** The value of [np.sum(terms, axis=0)] for a list of 1-D arrays of one
    length: the array of the column sums, or the scalar 0.0 when the list is
    empty. *)
Inductive npvalue : Type :=
| Scalar (x : npfloat)
| Vector (v : vec).

Definition sum_axis0 (terms : matrix) : npvalue :=
  match terms with
  | [] => Scalar (Fin 0)
  | _ :: _ => Vector (map np_sum (transpose terms))
  end.

(** Lines 142-159 of polyshow: the list [cart] of the points that are
    drawn, for float input.  [izip(coord, corners)] stops at the shorter of
    its arguments.  The drawing itself is not modelled. *)
Definition polyshow_cart (coords : ndarray) : outcome (list npvalue) :=
  let coords := map normalize_row (rows_of coords) in
  c0 <- getitem coords 0 ;;
  let d := length c0 in
  corners <- polycorners d ;;
  Returns (map (fun coord => sum_axis0 (map2 scale coord corners)) coords).

(** * Reference definitions for the statements *)

(** The angle of corner [i] of the regular [d]-gon and the corner itself. *)
Definition angle (d i : nat) : R := INR i / INR d * (PI * 2) + PI / 2.

Definition corner_x (d i : nat) : R := 0.5 + cos (angle d i) * 0.5.
Definition corner_y (d i : nat) : R := 0.5 + sin (angle d i) * 0.5.

Definition corner (d i : nat) : vec := [Fin (corner_x d i); Fin (corner_y d i)].

(** The Euclidean distance between two points, computed as the code does in
    baryedges: the 2-norm of the difference. *)
Definition distance (u v : vec) : outcome npfloat :=
  d <- vsub u v ;;
  Returns (norm2 d).

Definition fin (v : list R) : vec := map Fin v.

Definition rsum (v : list R) : R := fold_right Rplus 0 v.
Definition rdot (u v : list R) : R := rsum (map2 Rmult u v).

(** The line projection a + t (b - a), t = <p - a, b - a> / <b - a, b - a>,
    over the reals. *)
Definition line_projection (p a b : list R) : list R :=
  let t := rdot (map2 Rminus p a) (map2 Rminus b a) /
           rdot (map2 Rminus b a) (map2 Rminus b a) in
  map2 Rplus a (map (Rmult t) (map2 Rminus b a)).

(** A Cartesian point as a pair of reals, and as the 1-D array the code
    builds for it. *)
Definition as_vec (p : R * R) : vec := [Fin (fst p); Fin (snd p)].

Definition corner_points (d : nat) : list (R * R) :=
  map (fun i => (corner_x d i, corner_y d i)) (range d).

(** Convex hull of a finite set of points of the plane. *)
Definition convex_combination (lam : list R) (pts : list (R * R)) : R * R :=
  (rdot lam (map fst pts), rdot lam (map snd pts)).

Definition in_convex_hull (p : R * R) (pts : list (R * R)) : Prop :=
  exists lam : list R,
    length lam = length pts /\
    Forall (fun l => 0 <= l) lam /\
    rsum lam = 1 /\
    p = convex_combination lam pts.

(** The unit vector of axis [i] over the reals. *)
Definition runit (n i : nat) : list R :=
  map (fun j => if (i =? j)%nat then 1 else 0) (range n).

(** The candidate coordinates of the lattice over the reals, in the order
    the code appends them. *)
Definition rcenter (n : nat) : list R := repeat (1 / INR n) n.

Definition pair_center (n : nat) (ij : nat * nat) : list R :=
  map (fun x => x / 3)
      (map2 Rplus (map2 Rplus (runit n (fst ij)) (runit n (snd ij))) (rcenter n)).

Definition corner_center (n i : nat) : list R :=
  map (fun x => x / 2) (map2 Rplus (runit n i) (rcenter n)).

Definition side_midpoint (n : nat) (ij : nat * nat) : list R :=
  map (fun x => x / 2) (map2 Rplus (runit n (fst ij)) (runit n (snd ij))).

Definition candidates (n : nat) (sides : bool) : list (list R) :=
  map (runit n) (range n) ++ [rcenter n] ++
  map (pair_center n) (pairs n) ++
  map (corner_center n) (range n) ++
  (if sides then map (side_midpoint n) (pairs n) else []).

(** A normalized coordinate: finite, non-negative weights that sum to 1. *)
Definition normalized (n : nat) (ws : list R) : Prop :=
  length ws = n /\ Forall (fun w => 0 <= w) ws /\ rsum ws = 1.

(** The ten coordinates of the triangle lattice without sides: the three
    corners, the centroid, the three corner-corner-centroid averages and
    the three corner-centroid averages. *)
Definition triangle_lattice : list (list R) :=
  [ [1; 0; 0]; [0; 1; 0]; [0; 0; 1];
    [1/3; 1/3; 1/3];
    [4/9; 4/9; 1/9]; [4/9; 1/9; 4/9]; [1/9; 4/9; 4/9];
    [2/3; 1/6; 1/6]; [1/6; 2/3; 1/6]; [1/6; 1/6; 2/3] ].

Ltac distinct_vectors :=
  let H := fresh in
  cbn [In]; intros H;
  repeat (destruct H as [H|H]; [injection H; intros; lra|]);
  exact H.

(** The squared length of the chord between two corners. *)
Definition chord2 (d i j : nat) : R :=
  (corner_x d j - corner_x d i) * (corner_x d j - corner_x d i) +
  (corner_y d j - corner_y d i) * (corner_y d j - corner_y d i).

Definition rcorner (d i : nat) : list R := [corner_x d i; corner_y d i].

(** The list [l] with position [i] replaced by [x]. *)
Fixpoint upd {A : Type} (l : list A) (i : nat) (x : A) : list A :=
  match l, i with
  | [], _ => []
  | _ :: l', O => x :: l'
  | a :: l', S i' => a :: upd l' i' x
  end.

(** The two weights [np.sum(distances) - distances] that baryedges writes
    for the point [p] and the edge from [a] to [b]. *)
Definition edge_weights (p a b : list R) : R * R :=
  let proj := line_projection p a b in
  let d0 := sqrt (rdot (map2 Rminus a proj) (map2 Rminus a proj)) in
  let d1 := sqrt (rdot (map2 Rminus b proj) (map2 Rminus b proj)) in
  let s := d0 + (d1 + 0) in
  (s - d0, s - d1).

(** A [d] by [d] matrix. *)
Definition square (d : nat) (e : matrix) : Prop :=
  length e = d /\ Forall (fun row => length row = d) e.

(** The point bary2cart computes for one row. *)
Definition row_point (d : nat) (b : vec) : vec :=
  [np_sum (map2 fmul (vdiv_scalar b (np_sum b)) (fin (map fst (corner_points d))));
   np_sum (map2 fmul (vdiv_scalar b (np_sum b)) (fin (map snd (corner_points d))))].

(** ** Range of the inputs *)

(** Finite arithmetic on [npfloat] is exact, so it cannot overflow or
    underflow as float64 does.  Statements that depend on it keep the
    caller-supplied numbers where float64 cannot overflow or underflow: a
    coordinate is [moderate] when its magnitude is at most 2^100; a positive
    quantity is [in_range] when it lies between 2^-100 and 2^100; a sum of
    non-negative weights is at most [sum_max] = 2^1023 (float64 overflows
    just below 2^1024). *)
Definition moderate (x : R) : Prop := Rabs x <= 2 ^ 100.

Definition in_range (x : R) : Prop := / 2 ^ 100 <= x <= 2 ^ 100.

Definition sum_max : R := 2 ^ 1023.



(** A matrix entry that is a number, not nan or an infinity. *)
Definition finite (x : npfloat) : Prop := exists r, x = Fin r.

(** ** The expression of bary2cart in IEEE binary64 *)

Module Binary64.

Definition vec64 : Type := list PrimFloat.float.

(** [np.sum] of a 1-D array of fewer than 8 elements: they are added from
    left to right, starting from 0.0. *)
Definition np_sum (v : vec64) : PrimFloat.float :=
  fold_left PrimFloat.add v 0%float.

Definition vdiv_scalar (v : vec64) (s : PrimFloat.float) : vec64 :=
  map (fun x => PrimFloat.div x s) v.

Definition column (j : nat) (m : list vec64) : vec64 :=
  map (fun row => nth j row nan) m.

(** [np.sum(b / np.sum(b) * corners.T, axis=1)] for d weights and a d x 2
    array of corners. *)
Definition bary2cart_row (b : vec64) (corners : list vec64) : vec64 :=
  let w := vdiv_scalar b (np_sum b) in
  map (fun j => np_sum (map2 PrimFloat.mul w (column j corners))) [0%nat; 1%nat].

(** The corners of the triangle as float64 evaluates the expressions of
    polycorners(3): (0.5, 1), (0.06698729810778048, 0.25000000000000033),
    (0.9330127018922192, 0.24999999999999978). *)
Definition triangle : list vec64 :=
  [ [0.5; 1];
    [0x1.126145e9ecd48p-4; 0x1.0000000000006p-2];
    [0x1.ddb3d742c2654p-1; 0x1.ffffffffffff8p-3] ]%float.

End Binary64.

(** * Properties *)

(** ** Basic facts about the arithmetic *)

Lemma fdiv_fin (a b : R) : b <> 0 -> fdiv (Fin a) (Fin b) = Fin (a / b).
Proof.
  intros Hb. unfold fdiv. destruct (Req_dec_T b 0) as [E|_]; [contradiction|reflexivity].
Qed.

Lemma py_div_fin (a b : R) : b <> 0 -> py_div (Fin a) (Fin b) = Returns (Fin (a / b)).
Proof.
  intros Hb. unfold py_div.
  destruct (Req_dec_T b 0) as [E|_]; [contradiction|].
  now rewrite fdiv_fin.
Qed.

Lemma fsqrt_fin (a : R) : 0 <= a -> fsqrt (Fin a) = Fin (sqrt a).
Proof.
  intros Ha. unfold fsqrt. destruct (Rlt_dec a 0) as [L|_]; [lra|reflexivity].
Qed.

Lemma fdiv_zero_zero : fdiv (Fin 0) (Fin 0) = NaN.
Proof.
  unfold fdiv, inf_times.
  destruct (Req_dec_T 0 0) as [_|N]; [reflexivity|now elim N].
Qed.

Lemma INR_pos_neq (d : nat) : (0 < d)%nat -> INR d <> 0.
Proof. intros H. apply not_0_INR. lia. Qed.

(** ** polycorners *)

Lemma polycorners_step (d : nat) (l : list nat) :
  (0 < d)%nat ->
  mapM (fun i =>
          q <- py_div (float i) (float d) ;;
          h <- py_div np_pi (Fin 2) ;;
          let angle := fadd (fmul q (fmul np_pi (Fin 2))) h in
          c0 <- getitem [Fin 0.5; Fin 0.5] 0 ;;
          c1 <- getitem [Fin 0.5; Fin 0.5] 1 ;;
          let x := fadd c0 (fmul (fcos angle) (Fin 0.5)) in
          let y := fadd c1 (fmul (fsin angle) (Fin 0.5)) in
          Returns [x; y]) l
  = Returns (map (corner d) l).
Proof.
  intros Hd.
  match goal with |- mapM ?f _ = _ => set (F := f) end.
  induction l as [|i l IH]; [reflexivity|].
  cbn [mapM map]. rewrite IH. unfold F, float, np_pi.
  rewrite (py_div_fin (INR i) (INR d)) by now apply INR_pos_neq.
  rewrite (py_div_fin PI 2) by lra.
  reflexivity.
Qed.

Lemma polycorners_eq (d : nat) : polycorners d = Returns (map (corner d) (range d)).
Proof.
  destruct d as [|d]; [reflexivity|].
  unfold polycorners. apply polycorners_step. lia.
Qed.

Lemma nth_error_map_seq {A : Type} (f : nat -> A) (n i : nat) :
  (i < n)%nat -> nth_error (map f (seq 0 n)) i = Some (f i).
Proof.
  intros Hi. rewrite nth_error_map, nth_error_seq.
  destruct (Nat.ltb_spec i n) as [_|Hge]; [reflexivity|lia].
Qed.

Lemma corner_nth (d i : nat) :
  (i < d)%nat -> nth_error (map (corner d) (range d)) i = Some (corner d i).
Proof. apply nth_error_map_seq. Qed.

Lemma angle_0 (d : nat) : angle d 0 = PI / 2.
Proof. unfold angle. simpl INR. lra. Qed.

Lemma corner_0 (d : nat) : corner d 0 = [Fin 0.5; Fin 1].
Proof.
  unfold corner, corner_x, corner_y. rewrite angle_0, cos_PI2, sin_PI2.
  repeat f_equal; lra.
Qed.

Lemma norm2_fin2 (a b : R) : norm2 [Fin a; Fin b] = Fin (sqrt (a * a + b * b)).
Proof.
  unfold norm2, np_sum. cbn [map fold_right fmul fadd].
  rewrite fsqrt_fin by nra.
  do 2 f_equal. ring.
Qed.

Lemma corner_distance (d i : nat) :
  distance (corner d i) [Fin 0.5; Fin 0.5] = Returns (Fin 0.5).
Proof.
  unfold distance, corner, vsub, broadcast.
  cbn [length Nat.eqb bind map2 fsub fadd fopp].
  rewrite norm2_fin2. do 2 f_equal.
  match goal with
  | |- sqrt ?e = _ => replace e with (0.5 * 0.5); [apply sqrt_square; lra|]
  end.
  unfold corner_x, corner_y.
  pose proof (sin2_cos2 (angle d i)) as T. unfold Rsqr in T. nra.
Qed.

Lemma angle_increasing (d i j : nat) :
  (0 < d)%nat -> (i < j)%nat -> angle d i < angle d j.
Proof.
  intros Hd Hij. unfold angle.
  assert (0 < INR d) by (apply lt_0_INR; lia).
  assert (INR i < INR j) by now apply lt_INR.
  assert (INR i / INR d < INR j / INR d).
  { unfold Rdiv. apply Rmult_lt_compat_r; [now apply Rinv_0_lt_compat|assumption]. }
  pose proof PI_RGT_0. nra.
Qed.

Lemma angle_range (d i : nat) :
  (i < d)%nat -> PI / 2 <= angle d i < PI / 2 + 2 * PI.
Proof.
  intros Hi. unfold angle.
  assert (Hd : 0 < INR d) by (apply lt_0_INR; lia).
  assert (H0 : 0 <= INR i) by apply pos_INR.
  assert (H1 : INR i < INR d) by now apply lt_INR.
  assert (Hq : 0 <= INR i / INR d < 1).
  { split.
    - unfold Rdiv. apply Rmult_le_pos; [assumption|]. left. now apply Rinv_0_lt_compat.
    - apply (Rmult_lt_reg_r (INR d)); [assumption|].
      unfold Rdiv. rewrite Rmult_assoc, Rinv_l by lra. lra. }
  pose proof PI_RGT_0. nra.
Qed.

(** C1. For every d >= 2, polycorners(d) returns exactly d points; corner 0
    is (0.5, 1.0); corner i is center + 0.5 * (cos a_i, sin a_i) with
    a_i = (i/d)*2*pi + pi/2; each corner is at Euclidean distance 0.5 from
    (0.5, 0.5); the angles start at pi/2 (the top), stay within one turn and
    increase with i (counter-clockwise order). *)
Theorem polycorners_regular (d : nat) (Hd : (2 <= d)%nat) :
  exists pts,
    polycorners d = Returns pts /\
    length pts = d /\
    nth_error pts 0 = Some [Fin 0.5; Fin 1] /\
    (forall i, (i < d)%nat ->
       nth_error pts i =
         Some [Fin (0.5 + cos (angle d i) * 0.5); Fin (0.5 + sin (angle d i) * 0.5)] /\
       angle d i = INR i / INR d * (2 * PI) + PI / 2 /\
       PI / 2 <= angle d i < PI / 2 + 2 * PI /\
       (forall p, nth_error pts i = Some p ->
                  distance p [Fin 0.5; Fin 0.5] = Returns (Fin 0.5))) /\
    (forall i j, (i < j < d)%nat -> angle d i < angle d j).
Proof.
  exists (map (corner d) (range d)).
  split; [apply polycorners_eq|].
  split; [unfold range; now rewrite length_map, length_seq|].
  split; [rewrite corner_nth by lia; now rewrite corner_0|].
  split.
  - intros i Hi. rewrite corner_nth by assumption.
    split; [reflexivity|].
    split; [unfold angle; lra|].
    split; [now apply angle_range|].
    intros p Hp. injection Hp as <-. apply corner_distance.
  - intros i j Hij. apply angle_increasing; lia.
Qed.

Lemma polycorners_regular_witness :
  exists pts,
    polycorners 3 = Returns pts /\ length pts = 3%nat /\
    nth_error pts 0 = Some [Fin 0.5; Fin 1].
Proof.
  destruct (polycorners_regular 3 ltac:(lia)) as (pts & E & L & Z & _).
  exists pts. repeat split; assumption.
Defined.

Lemma Returns_not_raises {A : Type} (a : A) : ~ raises (Returns a).
Proof. intros [e He]. discriminate He. Qed.

(** C5, as stated, fails: polycorners(0) returns the empty sequence. *)
Lemma polycorners_zero_returns :
  polycorners 0 = Returns [] /\ ~ raises (polycorners 0).
Proof.
  split; [reflexivity|]. apply Returns_not_raises.
Qed.

(** C5, amended. For every corner count d, including d = 0 and d = 1,
    polycorners(d) raises no error and returns a sequence of exactly d
    points: the empty sequence for d = 0 and the single point (0.5, 1.0)
    for d = 1. *)
Theorem polycorners_never_raises :
  (forall d, ~ raises (polycorners d) /\
             exists pts, polycorners d = Returns pts /\ length pts = d) /\
  polycorners 0 = Returns [] /\
  polycorners 1 = Returns [[Fin 0.5; Fin 1]].
Proof.
  split; [|split].
  - intros d. rewrite polycorners_eq. split; [apply Returns_not_raises|].
    eexists; split; [reflexivity|].
    unfold range. now rewrite length_map, length_seq.
  - reflexivity.
  - rewrite polycorners_eq. cbn [range seq map]. now rewrite corner_0.
Qed.

(** ** Finite vectors *)

Lemma length_map2 {A B C : Type} (f : A -> B -> C) (u : list A) (v : list B) :
  length u = length v -> length (map2 f u v) = length u.
Proof.
  revert v. induction u as [|a u IH]; intros [|b v] H; cbn in *; try lia.
  f_equal. apply IH. lia.
Qed.

Lemma length_fin (v : list R) : length (fin v) = length v.
Proof. apply length_map. Qed.

Lemma map2_fin (f : npfloat -> npfloat -> npfloat) (g : R -> R -> R) (u v : list R) :
  (forall a b, f (Fin a) (Fin b) = Fin (g a b)) ->
  map2 f (fin u) (fin v) = fin (map2 g u v).
Proof.
  intros Hfg. revert v. induction u as [|a u IH]; intros [|b v]; cbn; try reflexivity.
  now rewrite Hfg, <- IH.
Qed.

Lemma broadcast_fin (f : npfloat -> npfloat -> npfloat) (g : R -> R -> R) (u v : list R) :
  (forall a b, f (Fin a) (Fin b) = Fin (g a b)) ->
  length u = length v ->
  broadcast f (fin u) (fin v) = Returns (fin (map2 g u v)).
Proof.
  intros Hfg Hl. unfold broadcast.
  rewrite !length_fin, Hl, Nat.eqb_refl. now rewrite (map2_fin f g).
Qed.

Lemma vsub_fin (u v : list R) :
  length u = length v -> vsub (fin u) (fin v) = Returns (fin (map2 Rminus u v)).
Proof. apply broadcast_fin. reflexivity. Qed.

Lemma vadd_fin (u v : list R) :
  length u = length v -> vadd (fin u) (fin v) = Returns (fin (map2 Rplus u v)).
Proof. apply broadcast_fin. reflexivity. Qed.

Lemma vmul_fin (u v : list R) :
  length u = length v -> vmul (fin u) (fin v) = Returns (fin (map2 Rmult u v)).
Proof. apply broadcast_fin. reflexivity. Qed.

Lemma np_sum_fin (v : list R) : np_sum (fin v) = Fin (rsum v).
Proof.
  induction v as [|a v IH]; [reflexivity|].
  cbn. fold (fin v). fold (np_sum (fin v)). now rewrite IH.
Qed.

Lemma np_dot_fin (u v : list R) :
  length u = length v -> np_dot (fin u) (fin v) = Returns (Fin (rdot u v)).
Proof.
  intros Hl. unfold np_dot. rewrite !length_fin, Hl, Nat.eqb_refl.
  rewrite (map2_fin fmul Rmult) by reflexivity.
  now rewrite np_sum_fin.
Qed.

Lemma scale_fin (t : R) (v : list R) : scale (Fin t) (fin v) = fin (map (Rmult t) v).
Proof. unfold scale, fin. rewrite !map_map. reflexivity. Qed.

Lemma vdiv_scalar_fin (v : list R) (s : R) :
  s <> 0 -> vdiv_scalar (fin v) (Fin s) = fin (map (fun x => x / s) v).
Proof.
  intros Hs. unfold vdiv_scalar, fin. rewrite !map_map.
  apply map_ext. intros a. now apply fdiv_fin.
Qed.

(** ** project_pointline *)

Lemma project_pointline_fin (p a b : list R) :
  length p = length a -> length b = length a ->
  rdot (map2 Rminus b a) (map2 Rminus b a) <> 0 ->
  project_pointline (fin p) (fin a) (fin b) = Returns (fin (line_projection p a b)).
Proof.
  intros Hp Hb Hden. unfold project_pointline.
  rewrite (vsub_fin p a), (vsub_fin b a) by assumption.
  cbn [bind].
  rewrite !np_dot_fin by (rewrite !length_map2; congruence).
  cbn [bind]. rewrite fdiv_fin by assumption.
  rewrite scale_fin. rewrite vadd_fin; [reflexivity|].
  rewrite length_map, length_map2; congruence.
Qed.

Lemma map2_Rminus_diag (a : list R) : map2 Rminus a a = repeat 0 (length a).
Proof.
  induction a as [|x a IH]; [reflexivity|].
  cbn. rewrite IH. f_equal. lra.
Qed.

Lemma rdot_zero_r (u : list R) (n : nat) : rdot u (repeat 0 n) = 0.
Proof.
  revert n. induction u as [|x u IH]; intros [|n]; try reflexivity.
  unfold rdot in *. cbn. rewrite IH. lra.
Qed.

Lemma scale_nan (v : vec) : scale NaN v = map (fun _ => NaN) v.
Proof. unfold scale. apply map_ext. reflexivity. Qed.

Lemma map2_fadd_nan (u : list R) (v : vec) :
  length u = length v -> map2 fadd (fin u) (map (fun _ => NaN) v) = map (fun _ => NaN) u.
Proof.
  revert v. induction u as [|x u IH]; intros [|y v] H; cbn in *; try reflexivity; try lia.
  f_equal. apply IH. lia.
Qed.

Lemma project_pointline_degenerate (p a : list R) :
  length p = length a ->
  project_pointline (fin p) (fin a) (fin a) = Returns (map (fun _ => NaN) a).
Proof.
  intros Hp. unfold project_pointline.
  rewrite (vsub_fin p a), (vsub_fin a a) by congruence.
  cbn [bind].
  rewrite !np_dot_fin by (rewrite !length_map2; congruence).
  cbn [bind].
  rewrite map2_Rminus_diag, !rdot_zero_r, fdiv_zero_zero, scale_nan.
  unfold vadd, broadcast.
  rewrite length_map, !length_fin, repeat_length, Nat.eqb_refl.
  rewrite map2_fadd_nan; [reflexivity|].
  now rewrite length_fin, repeat_length.
Qed.

(** C6, as stated, fails: with coinciding endpoints project_pointline
    returns the point (nan, nan) and raises nothing. *)
Lemma project_pointline_coinciding_returns_nan :
  project_pointline [Fin 0.5; Fin 0.5] [Fin 0; Fin 0] [Fin 0; Fin 0]
    = Returns [NaN; NaN] /\
  ~ raises (project_pointline [Fin 0.5; Fin 0.5] [Fin 0; Fin 0] [Fin 0; Fin 0]).
Proof.
  assert (E : project_pointline [Fin 0.5; Fin 0.5] [Fin 0; Fin 0] [Fin 0; Fin 0]
              = Returns [NaN; NaN])
    by exact (project_pointline_degenerate [0.5; 0.5] [0; 0] eq_refl).
  split; [exact E|]. rewrite E. apply Returns_not_raises.
Qed.

Lemma rdot_self_nonneg (v : list R) : 0 <= rdot v v.
Proof.
  unfold rdot, rsum. induction v as [|a v IH]; cbn [map2 fold_right]; [lra|nra].
Qed.

Lemma broadcast_equal_lengths (f : npfloat -> npfloat -> npfloat) (u v : vec) :
  length u = length v -> broadcast f u v = Returns (map2 f u v).
Proof. intros H. unfold broadcast. now rewrite H, Nat.eqb_refl. Qed.

Lemma broadcast_same_length_scale (a d : vec) (t : npfloat) :
  length (scale t d) = length a ->
  exists r, broadcast fadd a (scale t d) = Returns r /\ length r = length a.
Proof.
  intros H. exists (map2 fadd a (scale t d)). split.
  - apply broadcast_equal_lengths. congruence.
  - apply length_map2. congruence.
Qed.

Lemma broadcast_returns_same_length (f : npfloat -> npfloat -> npfloat) (u v : vec) :
  length u = length v ->
  exists r, broadcast f u v = Returns r /\ length r = length v.
Proof.
  intros H. exists (map2 f u v). split.
  - now apply broadcast_equal_lengths.
  - rewrite length_map2; congruence.
Qed.

Lemma project_pointline_returns (p a b : vec) :
  length p = length a -> length b = length a ->
  exists r, project_pointline p a b = Returns r /\ length r = length a.
Proof.
  intros Hp Hb. unfold project_pointline, vsub, vadd.
  destruct (broadcast_returns_same_length fsub p a Hp) as (pa & -> & Lpa).
  destruct (broadcast_returns_same_length fsub b a Hb) as (ba & -> & Lba).
  cbn [bind]. unfold np_dot.
  rewrite Lpa, Lba, Nat.eqb_refl. cbn [bind].
  apply broadcast_same_length_scale.
  unfold scale. rewrite length_map. congruence.
Qed.

(** C6, amended. For every finite point p and finite endpoint a of the same
    dimension, project_pointline(p, a, a) raises nothing and returns the
    point whose every coordinate is nan; for distinct endpoints (as for any
    p, a, b of one dimension, whatever their values) it raises nothing
    either and returns a point of that dimension, e.g.
    project_pointline((0.5, 0.5), (0, 0), (1, 0)) returns (0.5, 0). *)
Theorem project_pointline_cases :
  (forall p a : list R,
     length p = length a ->
     project_pointline (fin p) (fin a) (fin a) = Returns (map (fun _ => NaN) a)) /\
  (forall p a b : vec,
     length p = length a -> length b = length a ->
     exists r, project_pointline p a b = Returns r /\ length r = length a) /\
  project_pointline [Fin 0.5; Fin 0.5] [Fin 0; Fin 0] [Fin 1; Fin 0]
    = Returns [Fin 0.5; Fin 0].
Proof.
  split; [exact project_pointline_degenerate|].
  split; [exact project_pointline_returns|].
  change (project_pointline (fin [0.5; 0.5]) (fin [0; 0]) (fin [1; 0])
          = Returns (fin [0.5; 0])).
  rewrite project_pointline_fin; try reflexivity.
  - unfold line_projection, rdot, rsum. cbn [map2 map fold_right fin].
    repeat f_equal; field.
  - unfold rdot, rsum. cbn [map2 fold_right]. lra.
Qed.

Lemma project_pointline_cases_witness :
  project_pointline (fin [0.5; 0.5]) (fin [0; 0]) (fin [0; 0]) = Returns [NaN; NaN] /\
  exists r,
    project_pointline [Fin 0.5; Fin 0.5] [Fin 0; Fin 0] [Fin 1; Fin 0] = Returns r /\
    length r = 2%nat.
Proof.
  split.
  - exact (proj1 project_pointline_cases [0.5; 0.5] [0; 0] eq_refl).
  - exact (proj1 (proj2 project_pointline_cases)
             [Fin 0.5; Fin 0.5] [Fin 0; Fin 0] [Fin 1; Fin 0] eq_refl eq_refl).
Defined.

(** ** bary2cart *)

Lemma polycorners_points (d : nat) :
  polycorners d = Returns (map as_vec (corner_points d)).
Proof.
  rewrite polycorners_eq. unfold corner_points. now rewrite map_map.
Qed.

Lemma length_corner_points (d : nat) : length (corner_points d) = d.
Proof. unfold corner_points, range. now rewrite length_map, length_seq. Qed.

Lemma broadcast_same_length (f : npfloat -> npfloat -> npfloat) (u v : vec) :
  length u = length v -> broadcast f u v = Returns (map2 f u v).
Proof. intros H. unfold broadcast. now rewrite H, Nat.eqb_refl. Qed.

Lemma transpose_points (cs : list (R * R)) :
  cs <> [] -> transpose (map as_vec cs) = [fin (map fst cs); fin (map snd cs)].
Proof.
  intros Hne. destruct cs as [|c cs]; [contradiction|].
  unfold transpose, ncols. cbn [map hd as_vec length range seq].
  unfold column, fin. cbn [map nth as_vec].
  rewrite !map_map. reflexivity.
Qed.

Lemma bary2cart_row_points (b : vec) (cs : list (R * R)) :
  cs <> [] -> length b = length cs ->
  bary2cart_row b (map as_vec cs) =
    Returns [np_sum (map2 fmul (vdiv_scalar b (np_sum b)) (fin (map fst cs)));
             np_sum (map2 fmul (vdiv_scalar b (np_sum b)) (fin (map snd cs)))].
Proof.
  intros Hne Hl. unfold bary2cart_row.
  rewrite transpose_points by assumption.
  destruct cs as [|c cs]; [contradiction|].
  cbn [map]. fold (map as_vec cs).
  assert (Hw : length (vdiv_scalar b (np_sum b)) = length (c :: cs))
    by (unfold vdiv_scalar; now rewrite length_map).
  unfold compatible.
  replace (length (as_vec c :: map as_vec cs)) with (length (c :: cs))
    by (cbn; now rewrite length_map).
  rewrite Hw, Nat.eqb_refl. cbn [orb mapM].
  unfold vmul.
  rewrite !broadcast_same_length
    by (rewrite Hw; unfold fin; cbn [length map]; now rewrite ?length_map).
  reflexivity.
Qed.

Lemma bary2cart_default (b : vec) :
  b <> [] ->
  bary2cart (Arr1 b) None =
    Returns (Arr1
      [np_sum (map2 fmul (vdiv_scalar b (np_sum b))
                         (fin (map fst (corner_points (length b)))));
       np_sum (map2 fmul (vdiv_scalar b (np_sum b))
                         (fin (map snd (corner_points (length b)))))]).
Proof.
  intros Hne. unfold bary2cart. cbn [shape_last].
  rewrite polycorners_points. cbn [bind].
  rewrite bary2cart_row_points; [reflexivity| |].
  - intros E. apply (f_equal (@length _)) in E.
    rewrite length_corner_points in E. destruct b; [contradiction|discriminate].
  - now rewrite length_corner_points.
Qed.

Lemma bary2cart_fin (ws : list R) :
  ws <> [] -> rsum ws <> 0 ->
  bary2cart (Arr1 (fin ws)) None =
    Returns (Arr1 (as_vec
      (convex_combination (map (fun w => w / rsum ws) ws)
                          (corner_points (length ws))))).
Proof.
  intros Hne Hs. rewrite bary2cart_default.
  - rewrite np_sum_fin, vdiv_scalar_fin by assumption.
    rewrite !(map2_fin fmul Rmult) by reflexivity.
    rewrite !np_sum_fin, length_fin. reflexivity.
  - destruct ws; [contradiction|discriminate].
Qed.

(** Non-negative weights that sum to zero are all zero. *)
Lemma nonneg_rsum_zero (ws : list R) :
  Forall (fun w => 0 <= w) ws -> rsum ws = 0 -> ws = repeat 0 (length ws).
Proof.
  induction 1 as [|w ws Hw Hws IH]; [reflexivity|].
  unfold rsum in *. cbn [fold_right length repeat]. intros Hs.
  assert (Hn : 0 <= fold_right Rplus 0 ws).
  { clear -Hws. induction Hws as [|x l Hx _ IHl]; cbn [fold_right]; lra. }
  assert (w = 0) by lra. subst w.
  rewrite <- IH by lra. reflexivity.
Qed.

Lemma rsum_repeat_zero (n : nat) : rsum (repeat 0 n) = 0.
Proof.
  unfold rsum. induction n as [|n IH]; cbn [repeat fold_right]; [reflexivity|].
  rewrite IH. lra.
Qed.

Lemma np_sum_nan_products (n : nat) (v : list R) :
  n <> 0%nat -> length v = n ->
  np_sum (map2 fmul (repeat NaN n) (fin v)) = NaN.
Proof.
  intros Hn Hl. destruct n as [|n]; [contradiction|].
  destruct v as [|x v]; [discriminate|]. reflexivity.
Qed.

Lemma bary2cart_zeros (n : nat) :
  n <> 0%nat ->
  bary2cart (Arr1 (fin (repeat 0 n))) None = Returns (Arr1 [NaN; NaN]).
Proof.
  intros Hn. rewrite bary2cart_default by (destruct n; [contradiction|discriminate]).
  rewrite np_sum_fin, rsum_repeat_zero, length_fin, repeat_length.
  assert (E : vdiv_scalar (fin (repeat 0 n)) (Fin 0) = repeat NaN n).
  { unfold vdiv_scalar, fin. rewrite map_map.
    clear Hn. induction n as [|n IH]; [reflexivity|].
    cbn [repeat map]. now rewrite IH, fdiv_zero_zero. }
  rewrite E.
  rewrite !np_sum_nan_products; try assumption; try reflexivity;
    now rewrite length_map, length_corner_points.
Qed.

(** C4, as stated, fails: on the zero-sum input (0, 0, 0) bary2cart returns
    the point (nan, nan) and raises nothing. *)
Lemma bary2cart_zero_sum_returns_nan :
  bary2cart (Arr1 [Fin 0; Fin 0; Fin 0]) None = Returns (Arr1 [NaN; NaN]) /\
  ~ raises (bary2cart (Arr1 [Fin 0; Fin 0; Fin 0]) None).
Proof.
  assert (E : bary2cart (Arr1 [Fin 0; Fin 0; Fin 0]) None = Returns (Arr1 [NaN; NaN]))
    by exact (bary2cart_zeros 3 ltac:(discriminate)).
  split; [exact E|]. rewrite E. apply Returns_not_raises.
Qed.

(** C4, amended. For every non-empty barycentric input with finite,
    non-negative weights that sum to 0 (that is, the all-zero vector of any
    length d >= 1), bary2cart with the default corners raises nothing and
    returns the point (nan, nan). *)
Theorem bary2cart_zero_sum (ws : list R) :
  ws <> [] -> Forall (fun w => 0 <= w) ws -> rsum ws = 0 ->
  bary2cart (Arr1 (fin ws)) None = Returns (Arr1 [NaN; NaN]) /\
  ~ raises (bary2cart (Arr1 (fin ws)) None).
Proof.
  intros Hne Hpos Hs.
  assert (E : bary2cart (Arr1 (fin ws)) None = Returns (Arr1 [NaN; NaN])).
  { rewrite (nonneg_rsum_zero ws Hpos Hs). apply bary2cart_zeros.
    destruct ws; [contradiction|discriminate]. }
  split; [exact E|]. rewrite E. apply Returns_not_raises.
Qed.

Lemma bary2cart_zero_sum_witness :
  bary2cart (Arr1 (fin [0; 0])) None = Returns (Arr1 [NaN; NaN]).
Proof.
  refine (proj1 (bary2cart_zero_sum [0; 0] _ _ _)).
  - discriminate.
  - repeat constructor; lra.
  - cbn. lra.
Defined.

Lemma rsum_scale (s : R) (ws : list R) :
  rsum (map (fun w => w / s) ws) = rsum ws / s.
Proof.
  unfold rsum. induction ws as [|w ws IH]; cbn [map fold_right]; [lra|].
  rewrite IH. lra.
Qed.

Lemma four_le_sum_max : 4 <= sum_max.
Proof.
  unfold sum_max. replace 4 with (2 ^ 2) by lra.
  apply Rle_pow; [lra|lia].
Qed.

Lemma corner_sum_positive (d i : nat) : 0.25 <= corner_x d i + corner_y d i.
Proof.
  unfold corner_x, corner_y.
  pose proof (sin2_cos2 (angle d i)) as T. unfold Rsqr in T.
  set (c := cos (angle d i)) in *. set (s := sin (angle d i)) in *.
  assert (H2 : (c + s) * (c + s) <= 2).
  { pose proof (Rle_0_sqr (c - s)) as Q. unfold Rsqr in Q. lra. }
  destruct (Rle_dec (- 1.5) (c + s)) as [L|G]; [lra|].
  exfalso.
  assert (0 < (- (c + s) - 1.5) * (- (c + s) + 1.5))
    by (apply Rmult_lt_0_compat; lra).
  lra.
Qed.

Lemma hull_sum_bound (lam : list R) (pts : list (R * R)) :
  length lam = length pts ->
  Forall (fun l => 0 <= l) lam ->
  Forall (fun c => 0.25 <= fst c + snd c) pts ->
  0.25 * rsum lam <= rdot lam (map fst pts) + rdot lam (map snd pts).
Proof.
  unfold rdot, rsum. revert pts.
  induction lam as [|l lam IH]; intros [|c pts] Hl Hlam Hpts; cbn in Hl; try lia;
    cbn [map map2 fold_right]; [lra|].
  inversion Hlam; subst. inversion Hpts; subst.
  specialize (IH pts ltac:(lia) ltac:(assumption) ltac:(assumption)).
  nra.
Qed.

Lemma origin_outside_hull (d : nat) : ~ in_convex_hull (0, 0) (corner_points d).
Proof.
  intros (lam & Hl & Hpos & Hsum & E).
  unfold convex_combination in E. injection E as Ex Ey.
  assert (Hpts : Forall (fun c => 0.25 <= fst c + snd c) (corner_points d)).
  { unfold corner_points. apply Forall_map, Forall_forall. intros i _.
    cbn [fst snd]. apply corner_sum_positive. }
  pose proof (hull_sum_bound lam (corner_points d) Hl Hpos Hpts). lra.
Qed.

(** C7, as stated, fails in float64: for the non-negative weights
    (2^1023, 2^1023, 0), whose sum is positive, np.sum overflows to inf,
    every normalized weight is 0, and bary2cart returns (0, 0), which is
    not in the convex hull of the corners: every corner, in float64 as in
    exact arithmetic, has x + y >= 0.25. *)
Lemma bary2cart_overflow_leaves_hull :
  Binary64.np_sum [0x1p1023; 0x1p1023; 0]%float = infinity /\
  Binary64.vdiv_scalar [0x1p1023; 0x1p1023; 0]%float
    (Binary64.np_sum [0x1p1023; 0x1p1023; 0]%float) = [0; 0; 0]%float /\
  Binary64.bary2cart_row [0x1p1023; 0x1p1023; 0]%float Binary64.triangle
    = [0; 0]%float /\
  forallb (fun c => PrimFloat.leb 0.25 (Binary64.np_sum c)) Binary64.triangle
    = true /\
  ~ in_convex_hull (0, 0) (corner_points 3).
Proof.
  split; [vm_compute; reflexivity|].
  split; [vm_compute; reflexivity|].
  split; [vm_compute; reflexivity|].
  split; [vm_compute; reflexivity|].
  apply origin_outside_hull.
Qed.

(** C7, amended. For every barycentric coordinate w of length d >= 2 with
    non-negative weights whose sum is strictly positive and at most 2^1023
    (so that np.sum cannot overflow), bary2cart(w) is a convex combination
    of the d corner points returned by polycorners(d). *)
Theorem bary2cart_in_convex_hull (ws : list R) :
  (2 <= length ws)%nat ->
  Forall (fun w => 0 <= w) ws ->
  0 < rsum ws ->
  rsum ws <= sum_max ->
  exists (cs : list (R * R)) (p : R * R),
    polycorners (length ws) = Returns (map as_vec cs) /\
    length cs = length ws /\
    bary2cart (Arr1 (fin ws)) None = Returns (Arr1 (as_vec p)) /\
    in_convex_hull p cs.
Proof.
  intros Hd Hpos Hs _.
  exists (corner_points (length ws)).
  exists (convex_combination (map (fun w => w / rsum ws) ws) (corner_points (length ws))).
  split; [apply polycorners_points|].
  split; [apply length_corner_points|].
  split.
  - apply bary2cart_fin; [|lra]. destruct ws; [cbn in Hd; lia|discriminate].
  - exists (map (fun w => w / rsum ws) ws).
    split; [now rewrite length_map, length_corner_points|].
    split.
    + apply Forall_map. apply Forall_impl with (2 := Hpos).
      intros w Hw. apply Rmult_le_pos; [assumption|].
      left. now apply Rinv_0_lt_compat.
    + split; [|reflexivity]. rewrite rsum_scale. field. lra.
Qed.

Lemma bary2cart_in_convex_hull_witness :
  exists (cs : list (R * R)) (p : R * R),
    polycorners 3 = Returns (map as_vec cs) /\
    length cs = 3%nat /\
    bary2cart (Arr1 (fin [1; 2; 1])) None = Returns (Arr1 (as_vec p)) /\
    in_convex_hull p cs.
Proof.
  apply (bary2cart_in_convex_hull [1; 2; 1]).
  - cbn. lia.
  - repeat constructor; lra.
  - cbn. lra.
  - pose proof four_le_sum_max. cbn. lra.
Defined.

Lemma unit_vec_fin (n i : nat) : unit_vec n i = fin (runit n i).
Proof.
  unfold unit_vec, runit, fin. rewrite map_map.
  apply map_ext. intros j. now destruct (i =? j)%nat.
Qed.

Lemma rdot_unit_seq (f : nat -> R) (s : R) (i lo n : nat) :
  s <> 0 ->
  rdot (map (fun w => w / s) (map (fun j => if (i =? j)%nat then s else 0) (seq lo n)))
       (map f (seq lo n))
  = if ((lo <=? i) && (i <? lo + n))%nat then f i else 0.
Proof.
  intros Hs. unfold rdot, rsum. revert lo.
  induction n as [|n IH]; intros lo.
  - cbn [seq map map2 fold_right].
    destruct (lo <=? i)%nat eqn:E1; [|reflexivity].
    destruct (i <? lo + 0)%nat eqn:E2; [|reflexivity].
    apply Nat.leb_le in E1. apply Nat.ltb_lt in E2. lia.
  - cbn [seq map map2 fold_right]. rewrite IH.
    destruct (Nat.eqb_spec i lo) as [->|Hne].
    + rewrite Nat.leb_refl.
      replace (lo <? lo + S n)%nat with true by (symmetry; apply Nat.ltb_lt; lia).
      replace (S lo <=? lo)%nat with false by (symmetry; apply Nat.leb_gt; lia).
      cbn [andb]. field. assumption.
    + destruct (Nat.leb_spec lo i), (Nat.leb_spec (S lo) i),
        (Nat.ltb_spec i (lo + S n)), (Nat.ltb_spec i (S lo + n));
        cbn [andb]; try lia; field; assumption.
Qed.

Lemma rsum_runit (n i : nat) : (i < n)%nat -> rsum (runit n i) = 1.
Proof.
  intros Hi.
  pose proof (rdot_unit_seq (fun _ => 1) 1 i 0 n ltac:(lra)) as H.
  replace ((0 <=? i) && (i <? 0 + n))%nat with true in H
    by (symmetry; apply andb_true_intro; split;
        [apply Nat.leb_le; lia|apply Nat.ltb_lt; lia]).
  rewrite <- H. unfold runit, range, rdot, rsum. f_equal.
  generalize (seq 0 n). intros l. induction l as [|j l IH]; [reflexivity|].
  cbn [map map2]. rewrite <- IH. f_equal. field.
Qed.

Lemma rdot_runit (f : nat -> R) (n i : nat) :
  (i < n)%nat ->
  rdot (map (fun w => w / 1) (runit n i)) (map f (range n)) = f i.
Proof.
  intros Hi. unfold runit, range.
  rewrite (rdot_unit_seq f 1 i 0 n) by lra.
  replace ((0 <=? i) && (i <? 0 + n))%nat with true
    by (symmetry; apply andb_true_intro; split;
        [apply Nat.leb_le; lia|apply Nat.ltb_lt; lia]).
  reflexivity.
Qed.

Lemma runit_nonempty (n i : nat) : (0 < n)%nat -> runit n i <> [].
Proof. intros Hn. destruct n; [lia|discriminate]. Qed.

Lemma length_runit (n i : nat) : length (runit n i) = n.
Proof. unfold runit, range. now rewrite length_map, length_seq. Qed.

Lemma bary2cart_unit (d i : nat) :
  (i < d)%nat ->
  bary2cart (Arr1 (unit_vec d i)) None = Returns (Arr1 (corner d i)).
Proof.
  intros Hi. rewrite unit_vec_fin.
  rewrite bary2cart_fin;
    [|apply runit_nonempty; lia|rewrite rsum_runit by assumption; lra].
  rewrite rsum_runit, length_runit by assumption.
  unfold convex_combination, corner_points. rewrite !map_map. cbn [fst snd].
  rewrite !rdot_runit by assumption. reflexivity.
Qed.

(** C2. For every d >= 2 and every i in [0, d), bary2cart of the unit
    barycentric vector e_i with the default corners is exactly corner i of
    polycorners(d). *)
Theorem bary2cart_unit_is_corner (d i : nat) :
  (2 <= d)%nat -> (i < d)%nat ->
  exists pts c,
    polycorners d = Returns pts /\
    nth_error pts i = Some c /\
    bary2cart (Arr1 (unit_vec d i)) None = Returns (Arr1 c).
Proof.
  intros Hd Hi. exists (map (corner d) (range d)), (corner d i).
  split; [apply polycorners_eq|].
  split; [now apply corner_nth|].
  now apply bary2cart_unit.
Qed.

Lemma bary2cart_unit_is_corner_witness :
  exists pts c,
    polycorners 3 = Returns pts /\
    nth_error pts 1 = Some c /\
    bary2cart (Arr1 (unit_vec 3 1)) None = Returns (Arr1 c).
Proof.
  apply (bary2cart_unit_is_corner 3 1); lia.
Defined.

(** ** lattice *)

Lemma foldM_append {A : Type} (f : matrix -> A -> outcome matrix) (g : A -> vec)
      (base : matrix) (P : A -> Prop) :
  (forall rest a, P a -> f (base ++ rest) a = Returns ((base ++ rest) ++ [g a])) ->
  forall l rest, Forall P l ->
    foldM f l (base ++ rest) = Returns (base ++ rest ++ map g l).
Proof.
  intros Hf l. induction l as [|a l IH]; intros rest HP.
  - cbn. now rewrite app_nil_r.
  - inversion HP as [|? ? Ha Hl]; subst.
    cbn [foldM map]. rewrite Hf by assumption. cbn [bind].
    rewrite <- app_assoc. rewrite IH by assumption.
    now rewrite <- app_assoc.
Qed.

Lemma getitem_identity (n i : nat) (rest : matrix) :
  (i < n)%nat -> getitem (identity n ++ rest) i = Returns (fin (runit n i)).
Proof.
  intros Hi. unfold getitem, identity, range.
  rewrite nth_error_app1 by now rewrite length_map, length_seq.
  rewrite nth_error_map_seq by assumption. now rewrite unit_vec_fin.
Qed.

Lemma pairs_spec (n : nat) :
  Forall (fun ij => (fst ij < snd ij)%nat /\ (snd ij < n)%nat) (pairs n).
Proof.
  apply Forall_forall. intros [i j] Hin. unfold pairs, range, range2 in Hin.
  apply in_flat_map in Hin. destruct Hin as (i' & Hi' & Hin).
  apply in_map_iff in Hin. destruct Hin as (j' & E & Hj').
  injection E as -> ->. apply in_seq in Hi'. apply in_seq in Hj'.
  cbn [fst snd]. lia.
Qed.

Lemma range_spec (n : nat) : Forall (fun i => (i < n)%nat) (range n).
Proof. apply Forall_forall. intros i Hi. apply in_seq in Hi. lia. Qed.

Lemma length_rcenter (n : nat) : length (rcenter n) = n.
Proof. apply repeat_length. Qed.

Lemma fin_rcenter (n : nat) : repeat (Fin (1 / INR n)) n = fin (rcenter n).
Proof. unfold fin, rcenter. now rewrite map_repeat. Qed.

Lemma lattice_eq (n : nat) (sides : bool) :
  (0 < n)%nat ->
  lattice n sides = Returns (unique (map fin (candidates n sides))).
Proof.
  intros Hn. unfold lattice, float.
  rewrite py_div_fin by now apply INR_pos_neq.
  cbn [bind]. rewrite fin_rcenter.
  rewrite (foldM_append _ (fun ij => fin (pair_center n ij)) (identity n)
             (fun ij => (fst ij < snd ij)%nat /\ (snd ij < n)%nat));
    [|clear; intros rest [i j] [Hij Hj]; cbn [fst snd] in *|apply pairs_spec].
  2:{ rewrite !getitem_identity by lia. cbn [bind].
      rewrite vadd_fin by now rewrite !length_runit.
      cbn [bind].
      rewrite vadd_fin
        by (rewrite length_map2, length_runit, ?length_rcenter;
            now rewrite ?length_runit).
      cbn [bind]. rewrite vdiv_scalar_fin by lra. reflexivity. }
  cbn [bind].
  rewrite (foldM_append _ (fun i => fin (corner_center n i)) (identity n)
             (fun i => (i < n)%nat));
    [|clear; intros rest i Hi|apply range_spec].
  2:{ rewrite getitem_identity by lia. cbn [bind].
      rewrite vadd_fin by now rewrite length_runit, length_rcenter.
      cbn [bind]. rewrite vdiv_scalar_fin by lra. reflexivity. }
  cbn [bind].
  assert (Eid : identity n = map fin (map (runit n) (range n))).
  { unfold identity. rewrite map_map. apply map_ext. intros i. apply unit_vec_fin. }
  destruct sides.
  - rewrite (foldM_append _ (fun ij => fin (side_midpoint n ij)) (identity n)
               (fun ij => (fst ij < snd ij)%nat /\ (snd ij < n)%nat));
      [|clear; intros rest [i j] [Hij Hj]; cbn [fst snd] in *|apply pairs_spec].
    2:{ rewrite !getitem_identity by lia. cbn [bind].
        rewrite vadd_fin by now rewrite !length_runit.
        cbn [bind]. rewrite vdiv_scalar_fin by lra. reflexivity. }
    cbn [bind]. do 2 f_equal. unfold candidates.
    rewrite !map_app, !map_map, Eid, !map_map, <- !app_assoc. reflexivity.
  - cbn [bind]. do 2 f_equal. unfold candidates.
    rewrite !map_app, !map_map, Eid, !map_map, <- !app_assoc, app_nil_r. reflexivity.
Qed.

Lemma rsum_map2_plus (u v : list R) :
  length u = length v -> rsum (map2 Rplus u v) = rsum u + rsum v.
Proof.
  unfold rsum. revert v.
  induction u as [|a u IH]; intros [|b v] H; cbn in *; try lia; try lra.
  rewrite IH by lia. lra.
Qed.

Lemma Forall_map2_plus (u v : list R) :
  Forall (fun w => 0 <= w) u -> Forall (fun w => 0 <= w) v ->
  Forall (fun w => 0 <= w) (map2 Rplus u v).
Proof.
  intros Hu. revert v. induction Hu as [|a u Ha Hu IH]; intros v Hv; [constructor|].
  destruct Hv as [|b v Hb Hv]; cbn; constructor; [lra|now apply IH].
Qed.

Lemma Forall_halve (s : R) (u : list R) :
  0 < s -> Forall (fun w => 0 <= w) u -> Forall (fun w => 0 <= w) (map (fun x => x / s) u).
Proof.
  intros Hs Hu. apply Forall_map. apply Forall_impl with (2 := Hu).
  intros w Hw. apply Rmult_le_pos; [assumption|]. left. now apply Rinv_0_lt_compat.
Qed.

Lemma runit_nonneg (n i : nat) : Forall (fun w => 0 <= w) (runit n i).
Proof.
  unfold runit. apply Forall_map, Forall_forall. intros j _.
  destruct (i =? j)%nat; lra.
Qed.

Lemma normalized_runit (n i : nat) : (i < n)%nat -> normalized n (runit n i).
Proof.
  intros Hi. split; [apply length_runit|].
  split; [apply runit_nonneg|now apply rsum_runit].
Qed.

Lemma rsum_repeat (x : R) (n : nat) : rsum (repeat x n) = INR n * x.
Proof.
  unfold rsum. induction n as [|n IH]; [cbn; lra|].
  cbn [repeat fold_right]. rewrite IH, S_INR. lra.
Qed.

Lemma normalized_rcenter (n : nat) : (0 < n)%nat -> normalized n (rcenter n).
Proof.
  intros Hn. assert (0 < INR n) by (apply lt_0_INR; lia).
  split; [apply length_rcenter|]. split.
  - unfold rcenter. apply Forall_forall. intros x Hx.
    apply repeat_spec in Hx. subst x.
    apply Rmult_le_pos; [lra|]. left. now apply Rinv_0_lt_compat.
  - unfold rcenter. rewrite rsum_repeat. field. lra.
Qed.

Lemma normalized_average2 (n : nat) (u v : list R) :
  normalized n u -> normalized n v ->
  normalized n (map (fun x => x / 2) (map2 Rplus u v)).
Proof.
  intros (Lu & Pu & Su) (Lv & Pv & Sv).
  split; [rewrite length_map, length_map2; congruence|].
  split; [apply Forall_halve; [lra|now apply Forall_map2_plus]|].
  rewrite rsum_scale, rsum_map2_plus by congruence. lra.
Qed.

Lemma normalized_average3 (n : nat) (u v w : list R) :
  normalized n u -> normalized n v -> normalized n w ->
  normalized n (map (fun x => x / 3) (map2 Rplus (map2 Rplus u v) w)).
Proof.
  intros (Lu & Pu & Su) (Lv & Pv & Sv) (Lw & Pw & Sw).
  split; [rewrite length_map, !length_map2; try rewrite length_map2; congruence|].
  split; [apply Forall_halve; [lra|]; now repeat apply Forall_map2_plus|].
  rewrite rsum_scale, !rsum_map2_plus;
    try rewrite length_map2; try congruence. lra.
Qed.

Lemma candidates_normalized (n : nat) (sides : bool) (ws : list R) :
  (0 < n)%nat -> In ws (candidates n sides) -> normalized n ws.
Proof.
  intros Hn Hin. unfold candidates in Hin.
  pose proof (pairs_spec n) as Hp. rewrite Forall_forall in Hp.
  pose proof (range_spec n) as Hr. rewrite Forall_forall in Hr.
  repeat (apply in_app_or in Hin; destruct Hin as [Hin|Hin]).
  - apply in_map_iff in Hin. destruct Hin as (i & <- & Hi).
    apply normalized_runit. now apply Hr.
  - destruct Hin as [<-|[]]. now apply normalized_rcenter.
  - apply in_map_iff in Hin. destruct Hin as (ij & <- & Hij).
    destruct (Hp ij Hij). unfold pair_center.
    apply normalized_average3;
      [apply normalized_runit; lia|apply normalized_runit; lia
      |now apply normalized_rcenter].
  - apply in_map_iff in Hin. destruct Hin as (i & <- & Hi).
    unfold corner_center. apply normalized_average2;
      [apply normalized_runit; now apply Hr|now apply normalized_rcenter].
  - destruct sides; [|destruct Hin].
    apply in_map_iff in Hin. destruct Hin as (ij & <- & Hij).
    destruct (Hp ij Hij). unfold side_midpoint.
    apply normalized_average2; apply normalized_runit; lia.
Qed.

(** C9. For every d >= 2 and either value of the sides flag, lattice(d,
    sides) returns, and every coordinate it returns has d finite weights,
    all non-negative, whose sum (np.sum) is 1. *)
Theorem lattice_normalized (d : nat) (sides : bool) :
  (2 <= d)%nat ->
  exists l,
    lattice d sides = Returns l /\
    forall c, In c l ->
      exists ws, c = fin ws /\ length ws = d /\
                 Forall (fun w => 0 <= w) ws /\
                 np_sum c = Fin 1.
Proof.
  intros Hd. eexists. split; [apply lattice_eq; lia|].
  intros c Hc. unfold unique in Hc. apply nodup_In in Hc.
  apply in_map_iff in Hc. destruct Hc as (ws & <- & Hws).
  apply candidates_normalized in Hws; [|lia].
  destruct Hws as (L & P & S).
  exists ws. repeat split; try assumption.
  now rewrite np_sum_fin, S.
Qed.

Lemma lattice_normalized_witness :
  exists l,
    lattice 2 true = Returns l /\
    forall c, In c l ->
      exists ws, c = fin ws /\ length ws = 2%nat /\
                 Forall (fun w => 0 <= w) ws /\
                 np_sum c = Fin 1.
Proof.
  apply (lattice_normalized 2 true). lia.
Defined.

Lemma candidates_triangle : candidates 3 false = triangle_lattice.
Proof.
  unfold candidates, triangle_lattice, pairs, range, range2, pair_center,
    corner_center, rcenter, runit, range.
  cbn [seq map flat_map app Nat.add Nat.sub repeat fst snd Nat.eqb map2 INR].
  repeat (f_equal; try field).
Qed.

Lemma triangle_lattice_NoDup : NoDup (map fin triangle_lattice).
Proof.
  unfold triangle_lattice, fin. cbn [map].
  repeat (constructor; [distinct_vectors|]). constructor.
Qed.

Lemma lattice_triangle : lattice 3 false = Returns (map fin triangle_lattice).
Proof.
  rewrite lattice_eq by lia. rewrite candidates_triangle.
  unfold unique. now rewrite nodup_fixed_point by apply triangle_lattice_NoDup.
Qed.

(** C3, as stated, fails: lattice(3, sides=False) returns ten coordinates,
    not seven; among them the corner-centroid average (2/3, 1/6, 1/6), which
    is neither a corner, nor the centroid, nor a corner-pair-centroid
    average. *)
Lemma lattice_triangle_not_seven :
  exists l,
    lattice 3 false = Returns l /\
    length l = 10%nat /\ length l <> 7%nat /\
    In [Fin (2/3); Fin (1/6); Fin (1/6)] l.
Proof.
  exists (map fin triangle_lattice).
  split; [apply lattice_triangle|].
  split; [reflexivity|]. split; [discriminate|].
  unfold triangle_lattice, fin. cbn [map In]. tauto.
Qed.

(** C3, amended. lattice(3, sides=False) returns exactly 10 unique
    barycentric coordinates: the 3 corners (corner 0 is (1,0,0)), the
    centroid (1/3,1/3,1/3), the 3 corner-pair-centroid averages
    (4/9,4/9,1/9), (4/9,1/9,4/9), (1/9,4/9,4/9) and the 3 corner-centroid
    averages (2/3,1/6,1/6), (1/6,2/3,1/6), (1/6,1/6,2/3). *)
Theorem lattice_triangle_ten :
  exists l,
    lattice 3 false = Returns l /\
    NoDup l /\
    length l = 10%nat /\
    (forall c, In c l <->
       In c (map fin
               [ [1; 0; 0]; [0; 1; 0]; [0; 0; 1];
                 [1/3; 1/3; 1/3];
                 [4/9; 4/9; 1/9]; [4/9; 1/9; 4/9]; [1/9; 4/9; 4/9];
                 [2/3; 1/6; 1/6]; [1/6; 2/3; 1/6]; [1/6; 1/6; 2/3] ])) /\
    nth_error (identity 3) 0 = Some (fin [1; 0; 0]) /\
    In (fin [1; 0; 0]) l /\ In (fin [1/3; 1/3; 1/3]) l.
Proof.
  exists (map fin triangle_lattice).
  split; [apply lattice_triangle|].
  split; [apply triangle_lattice_NoDup|].
  split; [reflexivity|].
  split; [intros c; reflexivity|].
  split; [reflexivity|].
  unfold triangle_lattice, fin. cbn [map In]. tauto.
Qed.

(** ** Edges of the polygon *)

Lemma roll1_seq (n : nat) : roll1 (seq 0 (S n)) = n :: seq 0 n.
Proof.
  unfold roll1. rewrite seq_S, rev_app_distr. cbn [rev app Nat.add].
  now rewrite rev_involutive.
Qed.

Lemma combine_map_S (l : list nat) :
  combine (map S l) l = map (fun k => (S k, k)) l.
Proof. induction l as [|k l IH]; [reflexivity|]. cbn. now rewrite IH. Qed.

Lemma edges_eq (n : nat) :
  edges (S n) = (0%nat, n) :: map (fun k => (S k, k)) (seq 0 n).
Proof.
  unfold edges, arange. rewrite roll1_seq.
  cbn [seq combine]. rewrite <- seq_shift. now rewrite combine_map_S.
Qed.

Lemma edges_valid (d : nat) :
  (2 <= d)%nat ->
  Forall (fun e => (fst e < d)%nat /\ (snd e < d)%nat /\ fst e <> snd e) (edges d).
Proof.
  intros Hd. destruct d as [|n]; [lia|]. rewrite edges_eq.
  constructor; [cbn [fst snd]; lia|].
  apply Forall_forall. intros [i j] Hin.
  apply in_map_iff in Hin. destruct Hin as (k & E & Hk).
  injection E as <- <-. apply in_seq in Hk. cbn [fst snd]. lia.
Qed.

(** ** Distinct corners *)

Lemma cos_lt_1 (x : R) : 0 < x < 2 * PI -> cos x < 1.
Proof.
  intros [H0 H1].
  replace x with (2 * (x / 2)) by field.
  rewrite cos_2a_sin.
  assert (0 < sin (x / 2)) by (apply sin_gt_0; lra).
  nra.
Qed.

Lemma chord_square (a b : R) :
  (cos b - cos a) * (cos b - cos a) + (sin b - sin a) * (sin b - sin a)
  = 2 - 2 * cos (b - a).
Proof.
  rewrite cos_minus.
  pose proof (sin2_cos2 a) as Ha. pose proof (sin2_cos2 b) as Hb.
  unfold Rsqr in *. nra.
Qed.

Lemma angle_gap (d i j : nat) :
  (i < j)%nat -> (j < d)%nat -> 0 < angle d j - angle d i < 2 * PI.
Proof.
  intros Hij Hj.
  pose proof (angle_increasing d i j ltac:(lia) Hij).
  pose proof (angle_range d i ltac:(lia)).
  pose proof (angle_range d j Hj).
  lra.
Qed.

Lemma chord2_pos (d i j : nat) :
  (i < d)%nat -> (j < d)%nat -> i <> j -> 0 < chord2 d i j.
Proof.
  intros Hi Hj Hne. unfold chord2, corner_x, corner_y.
  pose proof (chord_square (angle d i) (angle d j)) as E.
  assert (Hc : cos (angle d j - angle d i) < 1).
  { destruct (Nat.lt_ge_cases i j) as [L|G].
    - apply cos_lt_1. now apply angle_gap.
    - rewrite <- cos_neg. replace (- (angle d j - angle d i))
        with (angle d i - angle d j) by ring.
      apply cos_lt_1. apply angle_gap; lia. }
  nra.
Qed.

Lemma corner_fin (d i : nat) : corner d i = fin (rcorner d i).
Proof. reflexivity. Qed.

Lemma rdot_rcorner (d i j : nat) :
  rdot (map2 Rminus (rcorner d j) (rcorner d i))
       (map2 Rminus (rcorner d j) (rcorner d i)) = chord2 d i j.
Proof. unfold rdot, rsum, rcorner, chord2. cbn [map2 fold_right]. ring. Qed.

(** ** Item assignment *)

Lemma setitem_upd {A : Type} (l : list A) (i : nat) (x : A) :
  (i < length l)%nat -> setitem l i x = Returns (upd l i x).
Proof.
  revert i. induction l as [|a l IH]; intros [|i] H; cbn in *; try lia; try reflexivity.
  rewrite IH by lia. reflexivity.
Qed.

Lemma length_upd {A : Type} (l : list A) (i : nat) (x : A) :
  length (upd l i x) = length l.
Proof.
  revert i. induction l as [|a l IH]; intros [|i]; cbn; try reflexivity.
  now rewrite IH.
Qed.

Lemma nth_error_upd_same {A : Type} (l : list A) (i : nat) (x : A) :
  (i < length l)%nat -> nth_error (upd l i x) i = Some x.
Proof.
  revert i. induction l as [|a l IH]; intros [|i] H; cbn in *; try lia; try reflexivity.
  apply IH. lia.
Qed.

Lemma nth_error_upd_other {A : Type} (l : list A) (i j : nat) (x : A) :
  i <> j -> nth_error (upd l i x) j = nth_error l j.
Proof.
  revert i j. induction l as [|a l IH]; intros [|i] [|j] H; cbn; try reflexivity; try lia.
  apply IH. lia.
Qed.

Lemma Forall_upd {A : Type} (P : A -> Prop) (l : list A) (i : nat) (x : A) :
  Forall P l -> P x -> Forall P (upd l i x).
Proof.
  intros Hl Hx. revert i. induction Hl as [|a l Ha Hl IH]; intros [|i]; cbn;
    constructor; auto.
Qed.

Lemma upd_repeat_same {A : Type} (z : A) (n i : nat) :
  upd (repeat z n) i z = repeat z n.
Proof.
  revert i. induction n as [|n IH]; intros [|i]; cbn; try reflexivity.
  now rewrite IH.
Qed.

Lemma getitem_Returns {A : Type} (l : list A) (i : nat) (a : A) :
  getitem l i = Returns a -> nth_error l i = Some a.
Proof.
  unfold getitem. destruct (nth_error l i); intros H; [now injection H as ->|discriminate].
Qed.

(** ** One edge of baryedges over finite values *)

Lemma map2_diag {A B : Type} (f : A -> A -> B) (v : list A) :
  map2 f v v = map (fun x => f x x) v.
Proof. induction v as [|a v IH]; [reflexivity|]. cbn. now rewrite IH. Qed.

Lemma norm2_fin (v : list R) : norm2 (fin v) = Fin (sqrt (rdot v v)).
Proof.
  unfold norm2.
  replace (map (fun x => fmul x x) (fin v)) with (fin (map2 Rmult v v)).
  - rewrite np_sum_fin. apply fsqrt_fin. apply rdot_self_nonneg.
  - rewrite map2_diag. unfold fin. rewrite !map_map. reflexivity.
Qed.

Lemma length_line_projection (p a b : list R) :
  length b = length a -> length (line_projection p a b) = length a.
Proof.
  intros Hb. unfold line_projection.
  rewrite length_map2; [reflexivity|].
  rewrite length_map, length_map2; congruence.
Qed.

Lemma edge_step_fin (p a b : list R) (corners e : matrix) (row : vec) (i1 i2 : nat) :
  getitem corners i1 = Returns (fin a) ->
  getitem corners i2 = Returns (fin b) ->
  length p = length a -> length b = length a ->
  rdot (map2 Rminus b a) (map2 Rminus b a) <> 0 ->
  getitem e i1 = Returns row ->
  (i1 < length row)%nat -> (i2 < length row)%nat ->
  edge_step (fin p) corners e (i1, i2) =
    Returns (upd e i1 (upd (upd row i1 (Fin (fst (edge_weights p a b))))
                           i2 (Fin (snd (edge_weights p a b))))).
Proof.
  intros Ha Hb Lp Lb Hden Hrow H1 H2. unfold edge_step.
  rewrite Ha, Hb. cbn [bind].
  rewrite project_pointline_fin by assumption. cbn [bind].
  pose proof (length_line_projection p a b Lb) as Lproj.
  rewrite !vsub_fin by congruence. cbn [bind].
  rewrite !norm2_fin. rewrite Hrow. cbn [bind].
  unfold np_sum. cbn [fold_right map fadd fsub fopp getitem nth_error bind].
  rewrite setitem_upd by assumption. cbn [bind].
  rewrite setitem_upd by now rewrite length_upd. cbn [bind].
  apply setitem_upd. apply getitem_Returns in Hrow.
  apply nth_error_Some. congruence.
Qed.

Lemma map2_Rplus_zero (a v : list R) :
  length v = length a -> map2 Rplus a (map (Rmult 0) v) = a.
Proof.
  revert v. induction a as [|x a IH]; intros [|y v] H; cbn in *; try reflexivity; try lia.
  rewrite IH by lia. f_equal. lra.
Qed.

Lemma map2_Rplus_one (a b : list R) :
  length b = length a -> map2 Rplus a (map (Rmult 1) (map2 Rminus b a)) = b.
Proof.
  revert b. induction a as [|x a IH]; intros [|y b] H; cbn in *; try reflexivity; try lia.
  rewrite IH by lia. f_equal. lra.
Qed.

Lemma rdot_zero_l (n : nat) (v : list R) : rdot (repeat 0 n) v = 0.
Proof.
  unfold rdot, rsum. revert v.
  induction n as [|n IH]; intros [|x v]; cbn [repeat map2 fold_right]; try reflexivity.
  rewrite IH. lra.
Qed.

Lemma rdot_sub_sym (a b : list R) :
  rdot (map2 Rminus a b) (map2 Rminus a b) = rdot (map2 Rminus b a) (map2 Rminus b a).
Proof.
  unfold rdot, rsum. revert b.
  induction a as [|x a IH]; intros [|y b]; cbn [map2 fold_right]; try reflexivity.
  rewrite IH. ring.
Qed.

Lemma line_projection_at_a (a b : list R) :
  length b = length a -> line_projection a a b = a.
Proof.
  intros Hb. unfold line_projection.
  rewrite map2_Rminus_diag, rdot_zero_l.
  replace (0 / _) with 0 by (unfold Rdiv; ring).
  apply map2_Rplus_zero. rewrite length_map2; congruence.
Qed.

Lemma line_projection_at_b (a b : list R) :
  length b = length a ->
  rdot (map2 Rminus b a) (map2 Rminus b a) <> 0 ->
  line_projection b a b = b.
Proof.
  intros Hb Hden. unfold line_projection.
  replace (_ / _) with 1 by (field; assumption).
  now apply map2_Rplus_one.
Qed.

Lemma edge_weights_at_a (a b : list R) :
  length b = length a ->
  edge_weights a a b = (sqrt (rdot (map2 Rminus b a) (map2 Rminus b a)), 0).
Proof.
  intros Hb. unfold edge_weights. rewrite line_projection_at_a by assumption.
  rewrite map2_Rminus_diag, rdot_zero_l, sqrt_0. f_equal; ring.
Qed.

Lemma edge_weights_at_b (a b : list R) :
  length b = length a ->
  rdot (map2 Rminus b a) (map2 Rminus b a) <> 0 ->
  edge_weights b a b = (0, sqrt (rdot (map2 Rminus b a) (map2 Rminus b a))).
Proof.
  intros Hb Hden. unfold edge_weights. rewrite line_projection_at_b by assumption.
  rewrite map2_Rminus_diag, rdot_zero_l, sqrt_0, rdot_sub_sym. f_equal; ring.
Qed.

(** ** baryedges on a corner *)

Lemma square_zeros (d : nat) : square d (zeros d).
Proof.
  unfold square, zeros. split; [apply repeat_length|].
  apply Forall_forall. intros row Hrow. apply repeat_spec in Hrow. subst row.
  apply repeat_length.
Qed.

Lemma square_row (d : nat) (e : matrix) (i : nat) :
  square d e -> (i < d)%nat ->
  exists row, getitem e i = Returns row /\ length row = d.
Proof.
  intros [Le Fe] Hi. unfold getitem.
  destruct (nth_error e i) as [row|] eqn:E.
  - exists row. split; [reflexivity|].
    rewrite Forall_forall in Fe. apply Fe. eapply nth_error_In; eassumption.
  - apply nth_error_None in E. lia.
Qed.

Lemma getitem_corner (d i : nat) :
  (i < d)%nat -> getitem (map (corner d) (range d)) i = Returns (fin (rcorner d i)).
Proof. intros Hi. unfold getitem. now rewrite corner_nth. Qed.

Lemma chord2_neq_0 (d i j : nat) :
  (i < d)%nat -> (j < d)%nat -> i <> j ->
  rdot (map2 Rminus (rcorner d j) (rcorner d i))
       (map2 Rminus (rcorner d j) (rcorner d i)) <> 0.
Proof.
  intros Hi Hj Hne. rewrite rdot_rcorner.
  pose proof (chord2_pos d i j Hi Hj Hne). lra.
Qed.

(** One iteration on a valid edge rewrites row [i1] only. *)
Lemma edge_step_corner (d : nat) (p : list R) (e : matrix) (i1 i2 : nat) :
  length p = 2%nat -> square d e ->
  (i1 < d)%nat -> (i2 < d)%nat -> i1 <> i2 ->
  exists row,
    getitem e i1 = Returns row /\
    edge_step (fin p) (map (corner d) (range d)) e (i1, i2) =
      Returns (upd e i1
        (upd (upd row i1 (Fin (fst (edge_weights p (rcorner d i1) (rcorner d i2)))))
             i2 (Fin (snd (edge_weights p (rcorner d i1) (rcorner d i2)))))).
Proof.
  intros Lp Hsq H1 H2 Hne.
  destruct (square_row d e i1 Hsq H1) as (row & Hrow & Lrow).
  exists row. split; [assumption|].
  apply edge_step_fin; try assumption; try reflexivity;
    try (now apply getitem_corner); try lia.
  now apply chord2_neq_0.
Qed.

Lemma square_upd (d : nat) (e : matrix) (i : nat) (row : vec) :
  square d e -> length row = d -> square d (upd e i row).
Proof.
  intros [Le Fe] Lrow. split; [now rewrite length_upd|].
  now apply Forall_upd.
Qed.

Lemma foldM_edge_steps (d : nat) (p : list R) (l : list (nat * nat)) (e : matrix) :
  length p = 2%nat -> square d e ->
  Forall (fun ij => (fst ij < d)%nat /\ (snd ij < d)%nat /\ fst ij <> snd ij) l ->
  exists e',
    foldM (edge_step (fin p) (map (corner d) (range d))) l e = Returns e' /\
    square d e' /\
    forall r, ~ In r (map fst l) -> nth_error e' r = nth_error e r.
Proof.
  intros Lp Hsq Hl. revert e Hsq.
  induction Hl as [|[i1 i2] l (H1 & H2 & Hne) Hl IH]; intros e Hsq.
  - exists e. repeat split; try apply Hsq. 
  - cbn [fst snd] in *.
    destruct (edge_step_corner d p e i1 i2 Lp Hsq H1 H2 Hne) as (row & Hrow & Hstep).
    destruct (square_row d e i1 Hsq H1) as (row' & Hrow' & Lrow).
    assert (row' = row) by congruence. subst row'.
    cbn [foldM]. rewrite Hstep. cbn [bind].
    match goal with |- context [upd e i1 ?r] => set (new := r) end.
    assert (Hsq' : square d (upd e i1 new)).
    { apply square_upd; [assumption|]. unfold new. now rewrite !length_upd. }
    destruct (IH _ Hsq') as (e' & He' & Hsq'' & Hkeep).
    exists e'. split; [assumption|]. split; [assumption|].
    intros r Hr. cbn [map fst In] in Hr.
    rewrite Hkeep by tauto.
    apply nth_error_upd_other. tauto.
Qed.

Lemma edges_head (d : nat) :
  (2 <= d)%nat ->
  edges d = (0%nat, (d - 1)%nat) :: (1%nat, 0%nat) ::
            map (fun k => (S k, k)) (seq 1 (d - 2)).
Proof.
  intros Hd. destruct d as [|[|m]]; try lia.
  replace (S (S m) - 1)%nat with (S m) by lia.
  replace (S (S m) - 2)%nat with m by lia.
  rewrite edges_eq. reflexivity.
Qed.

Lemma length_unit_vec (d i : nat) : length (unit_vec d i) = d.
Proof. unfold unit_vec, range. now rewrite length_map, length_seq. Qed.

Lemma baryedges_unit (d : nat) :
  (0 < d)%nat ->
  baryedges (unit_vec d 0) =
    foldM (edge_step (fin (rcorner d 0)) (map (corner d) (range d))) (edges d) (zeros d).
Proof.
  intros Hd.
  pose proof (bary2cart_unit d 0 Hd) as H.
  unfold baryedges. unfold bary2cart in *. cbn [shape_last bind] in *.
  rewrite length_unit_vec in *. rewrite polycorners_eq in *. cbn [bind] in *.
  destruct (bary2cart_row (unit_vec d 0) (map (corner d) (range d))) as [r|x];
    [|discriminate H].
  cbn [bind] in *. injection H as ->. reflexivity.
Qed.

Lemma row_first (d : nat) (w : R) :
  (2 <= d)%nat ->
  upd (upd (repeat (Fin 0) d) 0 (Fin w)) (d - 1) (Fin 0)
    = Fin w :: repeat (Fin 0) (d - 1).
Proof.
  intros Hd. destruct d as [|[|m]]; try lia.
  replace (S (S m) - 1)%nat with (S m) by lia.
  cbn [repeat upd]. f_equal.
  exact (upd_repeat_same (Fin 0) (S m) m).
Qed.

Lemma row_second (d : nat) (w : R) :
  (2 <= d)%nat ->
  upd (upd (repeat (Fin 0) d) 1 (Fin 0)) 0 (Fin w)
    = Fin w :: repeat (Fin 0) (d - 1).
Proof.
  intros Hd. destruct d as [|[|m]]; try lia.
  replace (S (S m) - 1)%nat with (S m) by lia. reflexivity.
Qed.

Lemma getitem_zeros (d i : nat) (row : vec) :
  getitem (zeros d) i = Returns row -> row = repeat (Fin 0) d.
Proof.
  intros H. apply getitem_Returns in H. apply nth_error_In in H.
  unfold zeros in H. now apply repeat_spec in H.
Qed.

(** C8. For every d >= 2, baryedges on the unit corner coordinate e_0
    returns a matrix whose row 0 (edge (0, d-1)) and row 1 (edge (1, 0))
    each carry a strictly positive weight at position 0 and the weight 0 at
    every other position, the other endpoint of the edge included. *)
Theorem baryedges_corner (d : nat) :
  (2 <= d)%nat ->
  In (0%nat, (d - 1)%nat) (edges d) /\ In (1%nat, 0%nat) (edges d) /\
  exists e w0 w1,
    baryedges (unit_vec d 0) = Returns e /\
    0 < w0 /\ 0 < w1 /\
    nth_error e 0 = Some (Fin w0 :: repeat (Fin 0) (d - 1)) /\
    nth_error e 1 = Some (Fin w1 :: repeat (Fin 0) (d - 1)).
Proof.
  intros Hd. pose proof (edges_head d Hd) as Hedges.
  split; [rewrite Hedges; now left|].
  split; [rewrite Hedges; right; now left|].
  set (w0 := sqrt (chord2 d 0 (d - 1))).
  set (w1 := sqrt (chord2 d 1 0)).
  assert (P0 : 0 < w0) by (apply sqrt_lt_R0, chord2_pos; lia).
  assert (P1 : 0 < w1) by (apply sqrt_lt_R0, chord2_pos; lia).
  (* edge (0, d-1): the point is the first endpoint *)
  destruct (edge_step_corner d (rcorner d 0) (zeros d) 0 (d - 1) eq_refl
              (square_zeros d) ltac:(lia) ltac:(lia) ltac:(lia))
    as (r0 & Hr0 & Hs0).
  apply getitem_zeros in Hr0. subst r0.
  rewrite edge_weights_at_a in Hs0 by reflexivity. cbn [fst snd] in Hs0.
  rewrite rdot_rcorner in Hs0. fold w0 in Hs0.
  rewrite row_first in Hs0 by assumption.
  set (row0 := Fin w0 :: repeat (Fin 0) (d - 1)) in *.
  assert (Lrow0 : length row0 = d)
    by (unfold row0; cbn [length]; rewrite repeat_length; lia).
  set (e1 := upd (zeros d) 0 row0) in *.
  assert (Hsq1 : square d e1) by (apply square_upd; [apply square_zeros|assumption]).
  (* edge (1, 0): the point is the second endpoint *)
  destruct (edge_step_corner d (rcorner d 0) e1 1 0 eq_refl Hsq1
              ltac:(lia) ltac:(lia) ltac:(lia))
    as (r1 & Hr1 & Hs1).
  assert (Er1 : r1 = repeat (Fin 0) d).
  { apply getitem_Returns in Hr1. unfold e1 in Hr1.
    rewrite nth_error_upd_other in Hr1 by lia.
    apply nth_error_In in Hr1. unfold zeros in Hr1. now apply repeat_spec in Hr1. }
  subst r1.
  rewrite edge_weights_at_b in Hs1
    by (try reflexivity; apply chord2_neq_0; lia).
  cbn [fst snd] in Hs1. rewrite rdot_rcorner in Hs1. fold w1 in Hs1.
  rewrite row_second in Hs1 by assumption.
  set (row1 := Fin w1 :: repeat (Fin 0) (d - 1)) in *.
  assert (Lrow1 : length row1 = d)
    by (unfold row1; cbn [length]; rewrite repeat_length; lia).
  set (e2 := upd e1 1 row1) in *.
  assert (Hsq2 : square d e2) by (apply square_upd; assumption).
  (* the remaining edges leave rows 0 and 1 alone *)
  destruct (foldM_edge_steps d (rcorner d 0)
              (map (fun k => (S k, k)) (seq 1 (d - 2))) e2 eq_refl Hsq2)
    as (e' & He' & _ & Hkeep).
  { apply Forall_forall. intros [i j] Hin.
    apply in_map_iff in Hin. destruct Hin as (k & E & Hk).
    injection E as <- <-. apply in_seq in Hk. cbn [fst snd]. lia. }
  assert (Hnot : forall r, (r < 2)%nat ->
                   ~ In r (map fst (map (fun k => (S k, k)) (seq 1 (d - 2))))).
  { intros r Hr Hin. rewrite map_map in Hin. cbn [fst] in Hin.
    apply in_map_iff in Hin. destruct Hin as (k & E & Hk).
    apply in_seq in Hk. lia. }
  exists e', w0, w1.
  split.
  { rewrite baryedges_unit by lia. rewrite Hedges. cbn [foldM].
    rewrite Hs0. cbn [bind]. rewrite Hs1. cbn [bind]. exact He'. }
  split; [assumption|]. split; [assumption|].
  rewrite !Hkeep by (apply Hnot; lia).
  assert (Lz : length (zeros d) = d) by (unfold zeros; apply repeat_length).
  split.
  - unfold e2. rewrite nth_error_upd_other by lia.
    unfold e1. rewrite nth_error_upd_same by lia. reflexivity.
  - unfold e2. rewrite nth_error_upd_same
      by (unfold e1; rewrite length_upd; lia).
    reflexivity.
Qed.

Lemma baryedges_corner_witness :
  exists e w0 w1,
    baryedges (unit_vec 3 0) = Returns e /\
    0 < w0 /\ 0 < w1 /\
    nth_error e 0 = Some [Fin w0; Fin 0; Fin 0] /\
    nth_error e 1 = Some [Fin w1; Fin 0; Fin 0].
Proof.
  exact (proj2 (proj2 (baryedges_corner 3 ltac:(lia)))).
Defined.

(** ** baryedges on finite input *)

Lemma corners_as_points (d : nat) :
  map as_vec (corner_points d) = map (corner d) (range d).
Proof. unfold corner_points. now rewrite map_map. Qed.

Lemma bary2cart_row_fin (ws : list R) (cs : list (R * R)) :
  cs <> [] -> length ws = length cs -> rsum ws <> 0 ->
  bary2cart_row (fin ws) (map as_vec cs) =
    Returns (as_vec (convex_combination (map (fun w => w / rsum ws) ws) cs)).
Proof.
  intros Hne Hl Hs.
  rewrite bary2cart_row_points by (try assumption; now rewrite length_fin).
  rewrite np_sum_fin, vdiv_scalar_fin by assumption.
  rewrite !(map2_fin fmul Rmult) by reflexivity.
  now rewrite !np_sum_fin.
Qed.

Lemma baryedges_fin (ws : list R) :
  (2 <= length ws)%nat -> rsum ws <> 0 ->
  exists e, baryedges (fin ws) = Returns e /\ square (length ws) e.
Proof.
  intros Hd Hs. unfold baryedges, bary2cart.
  rewrite length_fin, polycorners_eq. cbn [bind].
  rewrite <- corners_as_points.
  rewrite bary2cart_row_fin;
    [|intros E; apply (f_equal (@length _)) in E;
      rewrite length_corner_points in E; cbn in E; lia
     |now rewrite length_corner_points|assumption].
  cbn [bind]. rewrite corners_as_points.
  match goal with
  | |- context [edge_step (as_vec ?p)] =>
      change (as_vec p) with (fin [fst p; snd p])
  end.
  match goal with
  | |- context [edge_step (fin ?p)] =>
      destruct (foldM_edge_steps (length ws) p (edges (length ws))
                  (zeros (length ws)) eq_refl (square_zeros _)
                  (edges_valid _ Hd)) as (e & He & Hsq & _)
  end.
  exists e. split; assumption.
Qed.

(** * Further properties of the code *)

(** ** Ranges *)

Lemma four_le_pow100 : 4 <= 2 ^ 100.
Proof. replace 4 with (2 ^ 2) by lra. apply Rle_pow; [lra|lia]. Qed.

Lemma inv_pow100_pos : 0 < / 2 ^ 100.
Proof. apply Rinv_0_lt_compat. pose proof four_le_pow100. lra. Qed.

Lemma inv_pow100_le : / 2 ^ 100 <= / 4.
Proof. apply Rinv_le_contravar; [lra|apply four_le_pow100]. Qed.


Lemma in_range_intro (x : R) : / 4 <= x <= 4 -> in_range x.
Proof.
  intros H. unfold in_range.
  pose proof four_le_pow100. pose proof inv_pow100_le. lra.
Qed.



Lemma in_range_pos (x : R) : in_range x -> 0 < x.
Proof. intros [H _]. pose proof inv_pow100_pos. lra. Qed.

(** ** polycorners: shape of the polygon *)

Lemma corner_injective (d i j : nat) :
  (i < d)%nat -> (j < d)%nat -> corner d i = corner d j -> i = j.
Proof.
  intros Hi Hj E. destruct (Nat.eq_dec i j) as [|Hne]; [assumption|exfalso].
  pose proof (chord2_pos d i j Hi Hj Hne) as Hpos.
  unfold corner in E. injection E as Ex Ey.
  unfold chord2 in Hpos. rewrite Ex, Ey in Hpos. lra.
Qed.

(** polycorners(d) returns d pairwise distinct points, for every d. *)
Theorem polycorners_distinct (d : nat) :
  exists pts,
    polycorners d = Returns pts /\ length pts = d /\ NoDup pts.
Proof.
  exists (map (corner d) (range d)).
  split; [apply polycorners_eq|].
  split; [unfold range; now rewrite length_map, length_seq|].
  apply NoDup_map_NoDup_ForallPairs; [|apply seq_NoDup].
  intros i j Hi Hj E. apply in_seq in Hi. apply in_seq in Hj.
  apply (corner_injective d); [lia|lia|assumption].
Qed.

(** Every corner of polycorners(d) lies in the unit square [0,1] x [0,1]. *)
Theorem polycorners_in_unit_square (d : nat) :
  exists pts,
    polycorners d = Returns pts /\
    Forall (fun p => exists x y, p = [Fin x; Fin y] /\
                                 0 <= x <= 1 /\ 0 <= y <= 1) pts.
Proof.
  exists (map (corner d) (range d)).
  split; [apply polycorners_eq|].
  apply Forall_map, Forall_forall. intros i _.
  exists (corner_x d i), (corner_y d i). split; [reflexivity|].
  unfold corner_x, corner_y.
  pose proof (COS_bound (angle d i)). pose proof (SIN_bound (angle d i)). lra.
Qed.

Lemma chord2_cos (d i j : nat) :
  chord2 d i j = (1 - cos (angle d j - angle d i)) / 2.
Proof.
  unfold chord2, corner_x, corner_y.
  pose proof (chord_square (angle d i) (angle d j)) as E. nra.
Qed.

Lemma one_minus_cos_double (x : R) : (1 - cos (2 * x)) / 2 = sin x * sin x.
Proof. rewrite cos_2a_sin. field. Qed.

Lemma edge_chord2 (d i1 i2 : nat) :
  In (i1, i2) (edges d) ->
  chord2 d i1 i2 = sin (PI / INR d) * sin (PI / INR d).
Proof.
  destruct d as [|n]; [intros []|].
  assert (HD : INR (S n) <> 0) by (apply not_0_INR; lia).
  rewrite edges_eq. intros [E|Hin].
  - injection E as <- <-. rewrite chord2_cos.
    replace (angle (S n) n - angle (S n) 0)
      with (2 * PI - 2 * (PI / INR (S n)))
      by (unfold angle; rewrite S_INR in *; simpl INR; field; assumption).
    rewrite cos_minus, cos_2PI, sin_2PI.
    replace (1 * cos (2 * (PI / INR (S n))) + 0 * sin (2 * (PI / INR (S n))))
      with (cos (2 * (PI / INR (S n)))) by ring.
    apply one_minus_cos_double.
  - apply in_map_iff in Hin. destruct Hin as (k & E & Hk).
    injection E as <- <-. rewrite chord2_cos.
    replace (angle (S n) k - angle (S n) (S k))
      with (- (2 * (PI / INR (S n))))
      by (unfold angle; rewrite (S_INR k); field; assumption).
    rewrite cos_neg. apply one_minus_cos_double.
Qed.

Lemma distance_corners (d i j : nat) :
  distance (corner d i) (corner d j) = Returns (Fin (sqrt (chord2 d j i))).
Proof.
  unfold distance. rewrite !corner_fin, vsub_fin by reflexivity.
  cbn [bind]. now rewrite norm2_fin, rdot_rcorner.
Qed.

(** The polygon of polycorners(d) is regular: each of the d edges that
    baryedges walks, from corner i to corner i - 1 (mod d), has the length
    sin(pi / d). *)
Theorem polycorners_edges_equal (d : nat) :
  exists pts,
    polycorners d = Returns pts /\
    Forall (fun e =>
              exists a b,
                getitem pts (fst e) = Returns a /\
                getitem pts (snd e) = Returns b /\
                distance a b = Returns (Fin (sin (PI / INR d))))
           (edges d).
Proof.
  exists (map (corner d) (range d)).
  split; [apply polycorners_eq|].
  apply Forall_forall. intros [i1 i2] Hin. cbn [fst snd].
  assert (Hv : (i1 < d)%nat /\ (i2 < d)%nat).
  { destruct d as [|n]; [destruct Hin|]. rewrite edges_eq in Hin.
    destruct Hin as [E|Hin].
    - injection E as <- <-. lia.
    - apply in_map_iff in Hin. destruct Hin as (k & E & Hk).
      injection E as <- <-. apply in_seq in Hk. lia. }
  destruct Hv as [H1 H2].
  exists (corner d i1), (corner d i2).
  rewrite !getitem_corner by assumption.
  split; [reflexivity|]. split; [reflexivity|].
  rewrite distance_corners. do 2 f_equal.
  assert (Hs : 0 <= sin (PI / INR d)).
  { assert (0 < INR d) by (apply lt_0_INR; lia).
    assert (1 <= INR d) by (apply (le_INR 1); lia).
    pose proof PI_RGT_0.
    apply sin_ge_0.
    - apply Rmult_le_pos; [lra|]. left. now apply Rinv_0_lt_compat.
    - apply (Rmult_le_reg_r (INR d)); [assumption|].
      unfold Rdiv. rewrite Rmult_assoc, Rinv_l by lra. nra. }
  assert (E : chord2 d i2 i1 = chord2 d i1 i2) by (unfold chord2; ring).
  rewrite E, (edge_chord2 d i1 i2 Hin).
  now apply sqrt_square.
Qed.

(** ** project_pointline: geometry of the projection *)






Lemma distance_fin (u v : list R) :
  length u = length v ->
  distance (fin u) (fin v) =
    Returns (Fin (sqrt (rdot (map2 Rminus u v) (map2 Rminus u v)))).
Proof.
  intros Hl. unfold distance. rewrite vsub_fin by assumption.
  cbn [bind]. now rewrite norm2_fin.
Qed.











Lemma broadcast_incompatible (f : npfloat -> npfloat -> npfloat) (u v : vec) :
  compatible (length u) (length v) = false ->
  broadcast f u v = Raises ValueError.
Proof.
  unfold compatible, broadcast. intros H.
  apply orb_false_elim in H. destruct H as [H H3].
  apply orb_false_elim in H. destruct H as [H1 H2].
  rewrite H1.
  destruct u as [|x [|x' u]], v as [|y [|y' v]]; cbn in H1, H2, H3;
    try reflexivity; discriminate.
Qed.

Lemma broadcast_compatible (f : npfloat -> npfloat -> npfloat) (u v : vec) :
  compatible (length u) (length v) = true ->
  exists r, broadcast f u v = Returns r.
Proof.
  unfold compatible, broadcast. intros H.
  destruct (length u =? length v)%nat eqn:E; [eexists; reflexivity|].
  cbn [orb] in H. apply orb_true_elim in H. destruct H as [H|H].
  - destruct u as [|x [|x' u]]; try discriminate H. eexists; reflexivity.
  - destruct v as [|y [|y' v]]; try discriminate H.
    destruct u as [|x [|x' u]]; eexists; reflexivity.
Qed.

(** project_pointline raises ValueError when the point or the second
    endpoint cannot be broadcast against the first endpoint: the lengths
    differ and neither is 1. *)
Theorem project_pointline_shape_error (p a b : vec) :
  compatible (length p) (length a) = false \/
  compatible (length b) (length a) = false ->
  project_pointline p a b = Raises ValueError.
Proof.
  intros H. unfold project_pointline, vsub.
  destruct (compatible (length p) (length a)) eqn:Ep.
  - destruct H as [H|H]; [discriminate|].
    destruct (broadcast_compatible fsub p a Ep) as (r & ->). cbn [bind].
    now rewrite broadcast_incompatible.
  - now rewrite broadcast_incompatible.
Qed.

Lemma project_pointline_shape_error_witness :
  project_pointline [Fin 0; Fin 0; Fin 0] [Fin 0; Fin 0] [Fin 1; Fin 0]
    = Raises ValueError.
Proof.
  apply project_pointline_shape_error. left. reflexivity.
Defined.

(** ** bary2cart: normalization, mixtures, batches *)

Lemma rsum_scale_l (k : R) (ws : list R) : rsum (map (Rmult k) ws) = k * rsum ws.
Proof.
  unfold rsum. induction ws as [|w ws IH]; cbn [map fold_right]; [ring|].
  rewrite IH. ring.
Qed.

Lemma rdot_div_l (s : R) (u v : list R) :
  rdot (map (fun w => w / s) u) v = rdot u v / s.
Proof.
  unfold rdot, rsum. revert v.
  induction u as [|x u IH]; intros [|y v]; cbn [map map2 fold_right];
    try (unfold Rdiv; ring).
  rewrite IH. unfold Rdiv. ring.
Qed.

Lemma rdot_plus_l (u v w : list R) :
  length u = length v ->
  rdot (map2 Rplus u v) w = rdot u w + rdot v w.
Proof.
  unfold rdot, rsum. revert v w.
  induction u as [|x u IH]; intros [|y v] [|z w] H; cbn in H; try lia;
    cbn [map2 fold_right]; try ring.
  rewrite IH by lia. ring.
Qed.

Lemma ws_nonempty (ws : list R) : (1 <= length ws)%nat -> ws <> [].
Proof. destruct ws; [cbn; lia|discriminate]. Qed.

(** bary2cart normalizes its input: for non-negative weights whose sum
    lies between 2^-100 and 2^100, multiplying all weights by a factor k of
    that range does not change the Cartesian point. *)
Theorem bary2cart_scale_invariant (ws : list R) (k : R) :
  (1 <= length ws)%nat -> Forall (fun w => 0 <= w) ws ->
  in_range (rsum ws) -> in_range k ->
  exists pt,
    bary2cart (Arr1 (fin ws)) None = Returns (Arr1 pt) /\
    bary2cart (Arr1 (fin (map (Rmult k) ws))) None = Returns (Arr1 pt).
Proof.
  intros Hd _ Hs Hk.
  apply in_range_pos in Hs. apply in_range_pos in Hk.
  assert (Hs0 : rsum ws <> 0) by lra. assert (Hk0 : k <> 0) by lra.
  clear Hs Hk. rename Hs0 into Hs, Hk0 into Hk.
  eexists. split.
  - apply bary2cart_fin; [now apply ws_nonempty|assumption].
  - rewrite bary2cart_fin.
    + rewrite rsum_scale_l, length_map. unfold convex_combination.
      rewrite map_map, !rdot_div_l.
      replace (map (fun x => k * x / (k * rsum ws)) ws)
        with (map (fun w => w / rsum ws) ws)
        by (apply map_ext; intros w; field; split; assumption).
      now rewrite !rdot_div_l.
    + apply ws_nonempty. now rewrite length_map.
    + rewrite rsum_scale_l. now apply Rmult_integral_contrapositive_currified.
Qed.

Lemma bary2cart_scale_invariant_witness :
  exists pt,
    bary2cart (Arr1 (fin [1; 2; 1])) None = Returns (Arr1 pt) /\
    bary2cart (Arr1 (fin (map (Rmult 3) [1; 2; 1]))) None = Returns (Arr1 pt).
Proof.
  apply (bary2cart_scale_invariant [1; 2; 1] 3).
  - cbn. lia.
  - repeat (apply Forall_cons; [lra|]). apply Forall_nil.
  - apply in_range_intro. cbn. lra.
  - apply in_range_intro. lra.
Defined.

Lemma point_eq (a a' b b' : R) :
  a = a' -> b = b' ->
  Returns (Arr1 [Fin a; Fin b]) = Returns (Arr1 [Fin a'; Fin b']).
Proof. now intros -> ->. Qed.

(** Mixtures map to segments: for two coordinates u, v of the same length
    with non-negative weights and positive sums su, sv, su + sv at most
    2^1023, bary2cart(u + v) is the point
    t * bary2cart(u) + (1 - t) * bary2cart(v) with t = su / (su + sv). *)
Theorem bary2cart_mixture (u v : list R) :
  (1 <= length u)%nat -> length u = length v ->
  Forall (fun w => 0 <= w) u -> Forall (fun w => 0 <= w) v ->
  0 < rsum u -> 0 < rsum v -> rsum u + rsum v <= sum_max ->
  exists xu yu xv yv,
    bary2cart (Arr1 (fin u)) None = Returns (Arr1 [Fin xu; Fin yu]) /\
    bary2cart (Arr1 (fin v)) None = Returns (Arr1 [Fin xv; Fin yv]) /\
    bary2cart (Arr1 (fin (map2 Rplus u v))) None =
      Returns (Arr1 [Fin (rsum u / (rsum u + rsum v) * xu +
                          (1 - rsum u / (rsum u + rsum v)) * xv);
                     Fin (rsum u / (rsum u + rsum v) * yu +
                          (1 - rsum u / (rsum u + rsum v)) * yv)]).
Proof.
  intros Hd Hl _ _ Hu Hv _.
  assert (Luv : length (map2 Rplus u v) = length u) by now apply length_map2.
  do 4 eexists. split; [|split].
  - rewrite bary2cart_fin by (try apply ws_nonempty; try lra; lia). reflexivity.
  - rewrite bary2cart_fin by (try apply ws_nonempty; try lra; lia). reflexivity.
  - rewrite bary2cart_fin;
      [|apply ws_nonempty; lia|rewrite rsum_map2_plus by assumption; lra].
    rewrite rsum_map2_plus, Luv, <- Hl by assumption.
    unfold as_vec, convex_combination. cbn [fst snd].
    rewrite !rdot_div_l, !rdot_plus_l by assumption.
    apply point_eq; field; lra.
Qed.

Lemma bary2cart_mixture_witness :
  exists xu yu xv yv,
    bary2cart (Arr1 (fin [1; 0; 0])) None = Returns (Arr1 [Fin xu; Fin yu]) /\
    bary2cart (Arr1 (fin [0; 1; 1])) None = Returns (Arr1 [Fin xv; Fin yv]) /\
    bary2cart (Arr1 (fin (map2 Rplus [1; 0; 0] [0; 1; 1]))) None =
      Returns (Arr1 [Fin (rsum [1; 0; 0] / (rsum [1; 0; 0] + rsum [0; 1; 1]) * xu +
                          (1 - rsum [1; 0; 0] / (rsum [1; 0; 0] + rsum [0; 1; 1])) * xv);
                     Fin (rsum [1; 0; 0] / (rsum [1; 0; 0] + rsum [0; 1; 1]) * yu +
                          (1 - rsum [1; 0; 0] / (rsum [1; 0; 0] + rsum [0; 1; 1])) * yv)]).
Proof.
  apply (bary2cart_mixture [1; 0; 0] [0; 1; 1]).
  - cbn. lia.
  - reflexivity.
  - repeat (apply Forall_cons; [lra|]). apply Forall_nil.
  - repeat (apply Forall_cons; [lra|]). apply Forall_nil.
  - cbn. lra.
  - cbn. lra.
  - pose proof four_le_sum_max. cbn. lra.
Defined.

(** On a 1-D input with the default corners, bary2cart raises (ValueError)
    exactly for the empty input; every non-empty input, whatever its values
    (zero sum, nan, inf), gives a point with two coordinates. *)
Theorem bary2cart_raises_iff_empty (b : vec) :
  (b = [] /\ bary2cart (Arr1 b) None = Raises ValueError) \/
  (b <> [] /\ exists x y, bary2cart (Arr1 b) None = Returns (Arr1 [x; y])).
Proof.
  destruct b as [|w b].
  - left. split; reflexivity.
  - right. split; [discriminate|].
    rewrite bary2cart_default by discriminate. eauto.
Qed.

Lemma mapM_Returns {A B : Type} (f : A -> outcome B) (g : A -> B) (l : list A) :
  Forall (fun a => f a = Returns (g a)) l -> mapM f l = Returns (map g l).
Proof.
  induction 1 as [|a l Ha Hl IH]; [reflexivity|].
  cbn [mapM map]. now rewrite Ha, IH.
Qed.

(** On a 2-D input whose n >= 1 rows have length d >= 1, bary2cart returns
    n points, in the order of the rows, and the i-th point is what
    bary2cart returns for row i alone. *)
Theorem bary2cart_rows (d : nat) (rows : matrix) :
  (1 <= d)%nat -> rows <> [] -> Forall (fun b => length b = d) rows ->
  exists pts,
    bary2cart (Arr2 rows) None = Returns (Arr2 pts) /\
    Forall2 (fun b pt => bary2cart (Arr1 b) None = Returns (Arr1 pt)) rows pts.
Proof.
  intros Hd Hne Hrows.
  exists (map (row_point d) rows). split.
  - unfold bary2cart. cbn [shape_last].
    assert (Hc : ncols rows = d).
    { destruct rows as [|b rows]; [contradiction|].
      inversion Hrows; subst. reflexivity. }
    rewrite Hc, polycorners_points. cbn [bind].
    rewrite (mapM_Returns _ (row_point d)); [reflexivity|].
    apply Forall_impl with (2 := Hrows). intros b Hb.
    apply bary2cart_row_points; [|now rewrite length_corner_points].
    intros E. apply (f_equal (@length _)) in E.
    rewrite length_corner_points in E. cbn in E. lia.
  - induction Hrows as [|b rows Hb Hrows IH]; [contradiction|].
    cbn [map]. constructor.
    + rewrite bary2cart_default by (destruct b; [cbn in Hb; lia|discriminate]).
      now rewrite Hb.
    + destruct rows as [|b' rows]; [constructor|]. apply IH. discriminate.
Qed.

Lemma bary2cart_rows_witness :
  exists pts,
    bary2cart (Arr2 [[Fin 1; Fin 0; Fin 0]; [Fin 1; Fin 1; Fin 2]]) None
      = Returns (Arr2 pts) /\
    Forall2 (fun b pt => bary2cart (Arr1 b) None = Returns (Arr1 pt))
            [[Fin 1; Fin 0; Fin 0]; [Fin 1; Fin 1; Fin 2]] pts.
Proof.
  apply (bary2cart_rows 3).
  - lia.
  - discriminate.
  - repeat constructor.
Defined.

(** ** lattice: error case, content, size *)

(** lattice(0, sides) raises ZeroDivisionError, for either value of the
    flag: the center [1. / ncorners] is computed before anything else that
    depends on it (polycorners(0), in contrast, returns the empty array). *)
Theorem lattice_zero_raises (sides : bool) :
  lattice 0 sides = Raises ZeroDivisionError /\ polycorners 0 = Returns [].
Proof.
  split; [|reflexivity].
  unfold lattice, py_div, float. cbn [INR].
  destruct (Req_dec_T 0 0) as [_|N]; [reflexivity|now elim N].
Qed.

Lemma in_candidates_corner (d i : nat) (sides : bool) :
  (i < d)%nat -> In (runit d i) (candidates d sides).
Proof.
  intros Hi. unfold candidates. apply in_or_app. left.
  apply in_map. apply in_seq. lia.
Qed.

Lemma in_candidates_center (d : nat) (sides : bool) :
  In (rcenter d) (candidates d sides).
Proof.
  unfold candidates. apply in_or_app. right. apply in_or_app. left. now left.
Qed.

Lemma in_unique (c : vec) (l : matrix) : In c (unique l) <-> In c l.
Proof. unfold unique. apply nodup_In. Qed.

(** For every d >= 1, the coordinates lattice(d, sides) returns are
    pairwise different and include every corner e_i and the centroid
    (1/d, ..., 1/d). *)
Theorem lattice_content (d : nat) (sides : bool) :
  (1 <= d)%nat ->
  exists l,
    lattice d sides = Returns l /\
    NoDup l /\
    (forall i, (i < d)%nat -> In (unit_vec d i) l) /\
    In (repeat (Fin (1 / INR d)) d) l.
Proof.
  intros Hd. eexists. split; [apply lattice_eq; lia|].
  split; [apply NoDup_nodup|]. split.
  - intros i Hi. apply (proj2 (in_unique _ _)). rewrite unit_vec_fin.
    apply in_map. now apply in_candidates_corner.
  - apply (proj2 (in_unique _ _)). rewrite fin_rcenter.
    apply in_map. apply in_candidates_center.
Qed.

Lemma lattice_content_witness :
  exists l,
    lattice 3 true = Returns l /\
    NoDup l /\
    (forall i, (i < 3)%nat -> In (unit_vec 3 i) l) /\
    In (repeat (Fin (1 / INR 3)) 3) l.
Proof.
  apply (lattice_content 3 true). lia.
Defined.

(** With sides=True the lattice contains every coordinate of the lattice
    with sides=False, and also the midpoint (e_i + e_j) / 2 of every pair
    of corners i < j. *)
Theorem lattice_sides_extends (d : nat) :
  (1 <= d)%nat ->
  exists l0 l1,
    lattice d false = Returns l0 /\
    lattice d true = Returns l1 /\
    incl l0 l1 /\
    forall i j, (i < j < d)%nat ->
      In (fin (map (fun x => x / 2) (map2 Rplus (runit d i) (runit d j)))) l1.
Proof.
  intros Hd. do 2 eexists.
  split; [apply lattice_eq; lia|]. split; [apply lattice_eq; lia|].
  split.
  - intros c Hc. apply (proj1 (in_unique _ _)) in Hc. apply (proj2 (in_unique _ _)).
    apply in_map_iff in Hc. destruct Hc as (ws & <- & Hws).
    apply in_map. unfold candidates in *.
    rewrite app_nil_r in Hws.
    repeat (apply in_app_or in Hws; destruct Hws as [Hws|Hws]);
      repeat (apply in_or_app; (left; assumption) || right).
  - intros i j Hij. apply (proj2 (in_unique _ _)). apply in_map.
    unfold candidates. do 4 (apply in_or_app; right).
    apply in_map_iff. exists (i, j). split; [reflexivity|].
    unfold pairs, range, range2. apply in_flat_map.
    exists i. split; [apply in_seq; lia|].
    apply in_map. apply in_seq. lia.
Qed.

Lemma lattice_sides_extends_witness :
  exists l0 l1,
    lattice 3 false = Returns l0 /\
    lattice 3 true = Returns l1 /\
    incl l0 l1 /\
    forall i j, (i < j < 3)%nat ->
      In (fin (map (fun x => x / 2) (map2 Rplus (runit 3 i) (runit 3 j)))) l1.
Proof.
  apply (lattice_sides_extends 3). lia.
Defined.

Lemma length_nodup_le {A : Type} (dec : forall x y : A, {x = y} + {x <> y})
      (l : list A) :
  (length (nodup dec l) <= length l)%nat.
Proof.
  induction l as [|a l IH]; [apply Nat.le_refl|].
  cbn [nodup]. destruct (in_dec dec a l); cbn [length]; lia.
Qed.

Lemma list_sum_descending (n : nat) :
  (2 * list_sum (map (fun i => n - (i + 1)) (seq 0 n)) = n * (n - 1))%nat.
Proof.
  induction n as [|n IH]; [reflexivity|].
  cbn [seq map list_sum]. rewrite <- seq_shift, map_map.
  replace (map (fun x => S n - (S x + 1)) (seq 0 n))%nat
    with (map (fun i => n - (i + 1)) (seq 0 n))%nat
    by (apply map_ext; intros i; lia).
  replace (S n - (0 + 1))%nat with n by lia.
  replace (S n - 1)%nat with n by lia.
  assert (E : (n * (n - 1) + 2 * n = S n * n)%nat).
  { destruct n as [|m]; [reflexivity|].
    replace (S m - 1)%nat with m by lia. ring. }
  unfold list_sum in *. cbn [fold_right]. lia.
Qed.

Lemma length_pairs (n : nat) : (2 * length (pairs n) = n * (n - 1))%nat.
Proof.
  unfold pairs, range, range2. rewrite length_flat_map.
  replace (map (fun x => length (map (fun j => (x, j)) (seq (x + 1) (n - (x + 1)))))
               (seq 0 n))
    with (map (fun i => n - (i + 1))%nat (seq 0 n))
    by (apply map_ext; intros i; now rewrite length_map, length_seq).
  apply list_sum_descending.
Qed.

(** lattice(d, sides) returns at most 2d + 1 + d(d-1)/2 coordinates, and at
    most 2d + 1 + d(d-1) with sides=True; fewer when candidates coincide. *)
Theorem lattice_size_bound (d : nat) (sides : bool) :
  (1 <= d)%nat ->
  exists l,
    lattice d sides = Returns l /\
    (2 * length l <= 2 * (2 * d + 1) + (if sides then 2 else 1) * (d * (d - 1)))%nat.
Proof.
  intros Hd. eexists. split; [apply lattice_eq; lia|].
  unfold unique.
  pose proof (length_nodup_le vec_eq_dec (map fin (candidates d sides))) as Hle.
  rewrite length_map in Hle.
  assert (Hc : (2 * length (candidates d sides) =
                2 * (2 * d + 1) + (if sides then 2 else 1) * (d * (d - 1)))%nat).
  { unfold candidates. rewrite !length_app, !length_map. cbn [length].
    unfold range. rewrite length_seq.
    pose proof (length_pairs d) as Hp.
    destruct sides; [rewrite length_map|cbn [length]]; lia. }
  lia.
Qed.

Lemma lattice_size_bound_witness :
  exists l,
    lattice 3 false = Returns l /\
    (2 * length l <= 2 * (2 * 3 + 1) + 1 * (3 * (3 - 1)))%nat.
Proof.
  apply (lattice_size_bound 3 false). lia.
Defined.

(** ** baryedges: the rows of the result *)

Lemma firsts_edges (d : nat) : map fst (edges d) = seq 0 d.
Proof.
  destruct d as [|n]; [reflexivity|].
  rewrite edges_eq. cbn [map fst seq]. f_equal.
  rewrite map_map. cbn [fst]. now rewrite seq_shift.
Qed.

Lemma foldM_edge_rows (d : nat) (p : list R) (l : list (nat * nat)) (e : matrix) :
  length p = 2%nat -> square d e ->
  Forall (fun ij => (fst ij < d)%nat /\ (snd ij < d)%nat /\ fst ij <> snd ij) l ->
  NoDup (map fst l) ->
  exists e',
    foldM (edge_step (fin p) (map (corner d) (range d))) l e = Returns e' /\
    square d e' /\
    (forall r, ~ In r (map fst l) -> nth_error e' r = nth_error e r) /\
    (forall i1 i2 row,
       In (i1, i2) l -> nth_error e i1 = Some row ->
       nth_error e' i1 =
         Some (upd (upd row i1 (Fin (fst (edge_weights p (rcorner d i1) (rcorner d i2)))))
                   i2 (Fin (snd (edge_weights p (rcorner d i1) (rcorner d i2)))))).
Proof.
  intros Lp Hsq Hl. revert e Hsq.
  induction Hl as [|[i1 i2] l (H1 & H2 & Hne) Hl IH]; intros e Hsq Hnd.
  - exists e. split; [reflexivity|]. split; [assumption|].
    split; [reflexivity|]. intros ? ? ? [].
  - cbn [fst snd map] in *.
    inversion Hnd as [|? ? Hnotin Hnd']; subst.
    destruct (edge_step_corner d p e i1 i2 Lp Hsq H1 H2 Hne) as (row & Hrow & Hstep).
    destruct (square_row d e i1 Hsq H1) as (row' & Hrow' & Lrow).
    assert (row' = row) by congruence. subst row'.
    cbn [foldM]. rewrite Hstep. cbn [bind].
    match goal with |- context [upd e i1 ?r] => set (new := r) end.
    assert (Hsq' : square d (upd e i1 new)).
    { apply square_upd; [assumption|]. unfold new. now rewrite !length_upd. }
    destruct (IH _ Hsq' Hnd') as (e' & He' & Hsq'' & Hkeep & Hrows).
    exists e'. split; [assumption|]. split; [assumption|]. split.
    + intros r Hr. cbn [In] in Hr.
      rewrite Hkeep by tauto. apply nth_error_upd_other. tauto.
    + intros j1 j2 rw [E|Hin] Hrw.
      * injection E as <- <-.
        rewrite Hkeep by assumption.
        apply getitem_Returns in Hrow.
        assert (rw = row) by congruence. subst rw.
        apply nth_error_upd_same. destruct Hsq as [Le _]. lia.
      * apply Hrows; [assumption|].
        rewrite nth_error_upd_other; [assumption|].
        intros ->. apply Hnotin. apply (in_map fst) in Hin. exact Hin.
Qed.

Lemma edge_weights_swap (p a b : list R) :
  edge_weights p a b =
    (sqrt (rdot (map2 Rminus b (line_projection p a b))
                (map2 Rminus b (line_projection p a b))),
     sqrt (rdot (map2 Rminus a (line_projection p a b))
                (map2 Rminus a (line_projection p a b)))).
Proof. unfold edge_weights. f_equal; ring. Qed.

Lemma nth_error_repeat {A : Type} (x : A) (n k : nat) :
  (k < n)%nat -> nth_error (repeat x n) k = Some x.
Proof.
  revert k. induction n as [|n IH]; intros [|k] H; cbn; try lia; try reflexivity.
  apply IH. lia.
Qed.

(** For a coordinate of length d >= 2 with non-negative weights whose sum is
    positive and at most 2^1023, baryedges returns a d x d matrix.  For each
    edge (i1, i2) of the polygon, with
    endpoints a = corners[i1], b = corners[i2] and proj the projection of
    the input point on the line through them, row i1 holds the distance
    from b to proj in column i1, the distance from a to proj in column i2
    (the nearer endpoint gets the larger weight), and 0 everywhere else. *)
Theorem baryedges_rows (ws : list R) :
  (2 <= length ws)%nat -> Forall (fun w => 0 <= w) ws ->
  0 < rsum ws -> rsum ws <= sum_max ->
  exists e corners cart,
    baryedges (fin ws) = Returns e /\
    length e = length ws /\
    polycorners (length ws) = Returns corners /\
    bary2cart (Arr1 (fin ws)) None = Returns (Arr1 cart) /\
    forall i1 i2, In (i1, i2) (edges (length ws)) ->
      exists a b proj da db row,
        getitem corners i1 = Returns a /\
        getitem corners i2 = Returns b /\
        project_pointline cart a b = Returns proj /\
        distance a proj = Returns (Fin da) /\
        distance b proj = Returns (Fin db) /\
        nth_error e i1 = Some row /\
        length row = length ws /\
        nth_error row i1 = Some (Fin db) /\
        nth_error row i2 = Some (Fin da) /\
        forall k, (k < length ws)%nat -> k <> i1 -> k <> i2 ->
                  nth_error row k = Some (Fin 0).
Proof.
  intros Hd _ Hpos _.
  assert (Hs : rsum ws <> 0) by lra. clear Hpos.
  set (d := length ws) in *.
  set (c := convex_combination (map (fun w => w / rsum ws) ws) (corner_points d)).
  set (p := [fst c; snd c]).
  pose proof (edges_valid d Hd) as Hvalid.
  assert (Hnd : NoDup (map fst (edges d))) by (rewrite firsts_edges; apply seq_NoDup).
  destruct (foldM_edge_rows d p (edges d) (zeros d) eq_refl (square_zeros d)
              Hvalid Hnd) as (e & He & Hsq & _ & Hrows).
  exists e, (map (corner d) (range d)), (fin p).
  assert (Hcart : bary2cart (Arr1 (fin ws)) None = Returns (Arr1 (fin p))).
  { unfold d in *. rewrite bary2cart_fin; [reflexivity|apply ws_nonempty; lia|assumption]. }
  split.
  { unfold baryedges, bary2cart. rewrite length_fin. fold d.
    rewrite polycorners_eq. cbn [bind].
    rewrite <- corners_as_points.
    rewrite bary2cart_row_fin;
      [|intros E; apply (f_equal (@length _)) in E;
        rewrite length_corner_points in E; cbn in E; unfold d in *; lia
       |now rewrite length_corner_points|assumption].
    cbn [bind]. rewrite corners_as_points. exact He. }
  split; [apply Hsq|].
  split; [apply polycorners_eq|].
  split; [exact Hcart|].
  intros i1 i2 Hin.
  rewrite Forall_forall in Hvalid.
  destruct (Hvalid _ Hin) as (H1 & H2 & Hne). cbn [fst snd] in *.
  pose proof (chord2_neq_0 d i1 i2 H1 H2 Hne) as Hden.
  set (a := rcorner d i1) in *. set (b := rcorner d i2) in *.
  assert (Lproj : length (line_projection p a b) = 2%nat)
    by (now rewrite length_line_projection).
  exists (fin a), (fin b), (fin (line_projection p a b)).
  exists (sqrt (rdot (map2 Rminus a (line_projection p a b))
                     (map2 Rminus a (line_projection p a b)))).
  exists (sqrt (rdot (map2 Rminus b (line_projection p a b))
                     (map2 Rminus b (line_projection p a b)))).
  eexists.
  split; [now apply getitem_corner|]. split; [now apply getitem_corner|].
  split; [now apply project_pointline_fin|].
  split; [apply distance_fin; now rewrite Lproj|].
  split; [apply distance_fin; now rewrite Lproj|].
  assert (Hz : nth_error (zeros d) i1 = Some (repeat (Fin 0) d))
    by (unfold zeros; now apply nth_error_repeat).
  split; [apply (Hrows i1 i2 _ Hin Hz)|].
  fold a b. rewrite edge_weights_swap. cbn [fst snd].
  split; [now rewrite !length_upd, repeat_length|].
  split.
  { rewrite nth_error_upd_other by auto.
    apply nth_error_upd_same. now rewrite repeat_length. }
  split.
  { apply nth_error_upd_same. now rewrite length_upd, repeat_length. }
  intros k Hk Hk1 Hk2.
  rewrite !nth_error_upd_other by auto. now apply nth_error_repeat.
Qed.

Lemma baryedges_rows_witness :
  exists e corners cart,
    baryedges (fin [1; 2; 1]) = Returns e /\
    length e = 3%nat /\
    polycorners 3 = Returns corners /\
    bary2cart (Arr1 (fin [1; 2; 1])) None = Returns (Arr1 cart) /\
    forall i1 i2, In (i1, i2) (edges 3) ->
      exists a b proj da db row,
        getitem corners i1 = Returns a /\
        getitem corners i2 = Returns b /\
        project_pointline cart a b = Returns proj /\
        distance a proj = Returns (Fin da) /\
        distance b proj = Returns (Fin db) /\
        nth_error e i1 = Some row /\
        length row = 3%nat /\
        nth_error row i1 = Some (Fin db) /\
        nth_error row i2 = Some (Fin da) /\
        forall k, (k < 3)%nat -> k <> i1 -> k <> i2 ->
                  nth_error row k = Some (Fin 0).
Proof.
  apply (baryedges_rows [1; 2; 1]).
  - cbn. lia.
  - repeat (apply Forall_cons; [lra|]). apply Forall_nil.
  - cbn. lra.
  - pose proof four_le_sum_max. cbn. lra.
Defined.

(** ** verttext: where the label is put *)




(** ** polyshow: the plotted points *)


Lemma fgt0_fin_false (s : R) : s <= 0 -> fgt0 (Fin s) = false.
Proof. intros H. unfold fgt0. destruct (Rlt_dec 0 s); [lra|reflexivity]. Qed.

Lemma scaled_corners (w : list R) (cs : list (R * R)) :
  map2 scale (fin w) (map as_vec cs) =
    map as_vec (map2 (fun x c => (x * fst c, x * snd c)) w cs).
Proof.
  revert cs. induction w as [|x w IH]; intros [|c cs]; try reflexivity.
  cbn [fin map map2]. fold (fin w). now rewrite IH.
Qed.

Lemma rsum_scaled_fst (w : list R) (cs : list (R * R)) :
  rsum (map fst (map2 (fun x c => (x * fst c, x * snd c)) w cs)) = rdot w (map fst cs).
Proof.
  unfold rdot, rsum. revert cs.
  induction w as [|x w IH]; intros [|c cs]; try reflexivity.
  cbn [map map2 fold_right fst]. now rewrite IH.
Qed.

Lemma rsum_scaled_snd (w : list R) (cs : list (R * R)) :
  rsum (map snd (map2 (fun x c => (x * fst c, x * snd c)) w cs)) = rdot w (map snd cs).
Proof.
  unfold rdot, rsum. revert cs.
  induction w as [|x w IH]; intros [|c cs]; try reflexivity.
  cbn [map map2 fold_right snd]. now rewrite IH.
Qed.

Lemma sum_axis0_corners (w : list R) (cs : list (R * R)) :
  (1 <= length w)%nat -> length w = length cs ->
  sum_axis0 (map2 scale (fin w) (map as_vec cs)) =
    Vector (as_vec (convex_combination w cs)).
Proof.
  intros Hw Hl. rewrite scaled_corners.
  assert (Hne : map2 (fun x c => (x * fst c, x * snd c)) w cs <> [])
    by (destruct w, cs; cbn in *; try lia; discriminate).
  unfold sum_axis0.
  destruct (map as_vec (map2 (fun x c => (x * fst c, x * snd c)) w cs)) eqn:E.
  - destruct (map2 (fun x c => (x * fst c, x * snd c)) w cs);
      [contradiction|discriminate].
  - rewrite <- E, transpose_points by assumption.
    cbn [map]. rewrite !np_sum_fin, rsum_scaled_fst, rsum_scaled_snd.
    reflexivity.
Qed.

Lemma polyshow_cart_row (ws w' : list R) :
  (1 <= length ws)%nat -> length w' = length ws ->
  normalize_row (fin ws) = fin w' ->
  polyshow_cart (Arr1 (fin ws)) =
    Returns [Vector (as_vec (convex_combination w' (corner_points (length ws))))].
Proof.
  intros Hd Hl Hn. unfold polyshow_cart. cbn [rows_of map getitem nth_error bind].
  rewrite Hn, length_fin, Hl, polycorners_points. cbn [bind].
  rewrite sum_axis0_corners; [reflexivity|lia|].
  now rewrite length_corner_points.
Qed.



Lemma rdot_repeat_zero (n : nat) (v : list R) : rdot (repeat 0 n) v = 0.
Proof. apply rdot_zero_l. Qed.

(** polyshow normalizes only coordinates with a positive sum: the all-zero
    coordinate of length d >= 1 is left as it is and drawn at (0, 0), where
    bary2cart divides by the zero sum and returns (nan, nan). *)
Theorem polyshow_cart_zero (d : nat) :
  (1 <= d)%nat ->
  polyshow_cart (Arr1 (fin (repeat 0 d))) = Returns [Vector [Fin 0; Fin 0]] /\
  bary2cart (Arr1 (fin (repeat 0 d))) None = Returns (Arr1 [NaN; NaN]).
Proof.
  intros Hd. split.
  - rewrite (polyshow_cart_row (repeat 0 d) (repeat 0 d));
      [|now rewrite repeat_length|reflexivity|].
    + unfold convex_combination, as_vec. cbn [fst snd].
      now rewrite !rdot_repeat_zero.
    + unfold normalize_row. rewrite np_sum_fin, fgt0_fin_false; [reflexivity|].
      rewrite rsum_repeat_zero. lra.
  - apply bary2cart_zeros. lia.
Qed.

Lemma polyshow_cart_zero_witness :
  polyshow_cart (Arr1 (fin (repeat 0 3))) = Returns [Vector [Fin 0; Fin 0]] /\
  bary2cart (Arr1 (fin (repeat 0 3))) None = Returns (Arr1 [NaN; NaN]).
Proof.
  apply (polyshow_cart_zero 3). lia.
Defined.

(** ** Compositions *)

Lemma normalized_weights (ws : list R) :
  0 < rsum ws -> Forall (fun w => 0 <= w) ws ->
  Forall (fun l => 0 <= l) (map (fun w => w / rsum ws) ws) /\
  rsum (map (fun w => w / rsum ws) ws) = 1.
Proof.
  intros Hs Hpos. split.
  - apply Forall_halve; assumption.
  - rewrite rsum_scale. field. lra.
Qed.

(** Every coordinate of lattice(d, sides), d >= 1, is mapped by bary2cart
    to a point of the convex hull of polycorners(d); in particular
    bary2cart never yields nan on a lattice. *)
Theorem lattice_points_in_hull (d : nat) (sides : bool) :
  (1 <= d)%nat ->
  exists l cs,
    lattice d sides = Returns l /\
    polycorners d = Returns (map as_vec cs) /\
    forall c, In c l ->
      exists p, bary2cart (Arr1 c) None = Returns (Arr1 (as_vec p)) /\
                in_convex_hull p cs.
Proof.
  intros Hd. eexists. exists (corner_points d).
  split; [apply lattice_eq; lia|].
  split; [apply polycorners_points|].
  intros c Hc. apply (proj1 (in_unique _ _)) in Hc.
  apply in_map_iff in Hc. destruct Hc as (ws & <- & Hws).
  apply candidates_normalized in Hws; [|lia].
  destruct Hws as (L & P & S).
  eexists. split.
  - rewrite bary2cart_fin; [rewrite L; reflexivity|apply ws_nonempty; lia|lra].
  - exists (map (fun w => w / rsum ws) ws).
    split; [now rewrite length_map, length_corner_points|].
    destruct (normalized_weights ws ltac:(lra) P) as [A B].
    split; [assumption|]. split; [assumption|reflexivity].
Qed.

Lemma lattice_points_in_hull_witness :
  exists l cs,
    lattice 3 true = Returns l /\
    polycorners 3 = Returns (map as_vec cs) /\
    forall c, In c l ->
      exists p, bary2cart (Arr1 c) None = Returns (Arr1 (as_vec p)) /\
                in_convex_hull p cs.
Proof.
  apply (lattice_points_in_hull 3 true). lia.
Defined.

Lemma convex_combination_scaled (k : R) (ws : list R) (cs : list (R * R)) :
  k <> 0 -> rsum ws <> 0 ->
  convex_combination
    (map (fun w => w / rsum (map (Rmult k) ws)) (map (Rmult k) ws)) cs
  = convex_combination (map (fun w => w / rsum ws) ws) cs.
Proof.
  intros Hk Hs. rewrite rsum_scale_l, map_map.
  replace (map (fun x => k * x / (k * rsum ws)) ws)
    with (map (fun w => w / rsum ws) ws)
    by (apply map_ext; intros w; field; split; assumption).
  reflexivity.
Qed.

Lemma baryedges_fin_eq (ws : list R) :
  (1 <= length ws)%nat -> rsum ws <> 0 ->
  baryedges (fin ws) =
    foldM (edge_step
             (as_vec (convex_combination (map (fun w => w / rsum ws) ws)
                                         (corner_points (length ws))))
             (map (corner (length ws)) (range (length ws))))
          (edges (length ws)) (zeros (length ws)).
Proof.
  intros Hd Hs. unfold baryedges, bary2cart.
  rewrite length_fin, polycorners_eq. cbn [bind].
  rewrite <- corners_as_points.
  rewrite bary2cart_row_fin;
    [|intros E; apply (f_equal (@length _)) in E;
      rewrite length_corner_points in E; cbn in E; lia
     |now rewrite length_corner_points|assumption].
  reflexivity.
Qed.

(** baryedges normalizes its input as bary2cart does: multiplying a
    coordinate of length d >= 2, with non-negative weights whose sum lies
    between 2^-100 and 2^100, by a factor of that range leaves the returned
    matrix unchanged. *)
Theorem baryedges_scale_invariant (ws : list R) (k : R) :
  (2 <= length ws)%nat -> Forall (fun w => 0 <= w) ws ->
  in_range (rsum ws) -> in_range k ->
  exists e,
    baryedges (fin ws) = Returns e /\
    baryedges (fin (map (Rmult k) ws)) = Returns e.
Proof.
  intros Hd _ Hs Hk.
  apply in_range_pos in Hs. apply in_range_pos in Hk.
  assert (Hs0 : rsum ws <> 0) by lra. assert (Hk0 : k <> 0) by lra.
  clear Hs Hk. rename Hs0 into Hs, Hk0 into Hk.
  destruct (baryedges_fin ws Hd Hs) as (e & He & _).
  exists e. split; [assumption|].
  rewrite baryedges_fin_eq in He by (try assumption; lia).
  rewrite baryedges_fin_eq.
  - rewrite length_map, convex_combination_scaled by assumption. exact He.
  - rewrite length_map. lia.
  - rewrite rsum_scale_l. now apply Rmult_integral_contrapositive_currified.
Qed.

Lemma baryedges_scale_invariant_witness :
  exists e,
    baryedges (fin [1; 2; 1]) = Returns e /\
    baryedges (fin (map (Rmult 3) [1; 2; 1])) = Returns e.
Proof.
  apply (baryedges_scale_invariant [1; 2; 1] 3).
  - cbn. lia.
  - repeat (apply Forall_cons; [lra|]). apply Forall_nil.
  - apply in_range_intro. cbn. lra.
  - apply in_range_intro. lra.
Defined.

(** ** baryedges below two corners *)

(** baryedges needs at least two corners to be meaningful: on the empty
    coordinate it raises ValueError (polycorners(0) is an empty 1-D array,
    and bary2cart cannot sum over its axis 1); on a coordinate with a single
    nonzero weight it returns the 1 x 1 matrix [[nan]], because the only
    edge is (0, 0) and its endpoints coincide. *)
Theorem baryedges_degenerate :
  baryedges [] = Raises ValueError /\
  forall w : R, w <> 0 -> baryedges [Fin w] = Returns [[NaN]].
Proof.
  split; [reflexivity|].
  intros w Hw.
  change [Fin w] with (fin [w]).
  rewrite baryedges_fin_eq by (cbn; try lia; lra).
  cbn [length range seq map edges arange roll1 rev app combine zeros repeat foldM].
  unfold edge_step. cbn [getitem nth_error bind].
  rewrite corner_fin.
  match goal with
  | |- context [project_pointline (as_vec ?p) _ _] =>
      change (as_vec p) with (fin [fst p; snd p])
  end.
  rewrite project_pointline_degenerate by reflexivity.
  reflexivity.
Qed.

(** ** baryedges: every projection is well defined *)

Lemma finite_row (d i1 i2 : nat) (x y : R) :
  Forall finite (upd (upd (repeat (Fin 0) d) i1 (Fin x)) i2 (Fin y)).
Proof.
  apply Forall_upd; [apply Forall_upd|]; try (eexists; reflexivity).
  apply Forall_forall. intros z Hz. apply repeat_spec in Hz. subst z.
  eexists; reflexivity.
Qed.

Lemma edge_of_row (d i : nat) :
  (i < d)%nat -> exists i2, In (i, i2) (edges d).
Proof.
  intros Hi.
  assert (Hin : In i (map fst (edges d))) by (rewrite firsts_edges; apply in_seq; lia).
  apply in_map_iff in Hin. destruct Hin as ([j1 j2] & E & Hin).
  cbn [fst] in E. subst j1. now exists j2.
Qed.

Lemma baryedges_entries_finite (ws : list R) :
  (2 <= length ws)%nat -> rsum ws <> 0 ->
  exists e,
    baryedges (fin ws) = Returns e /\
    square (length ws) e /\
    Forall (Forall finite) e.
Proof.
  intros Hd Hs. set (d := length ws) in *.
  set (c := convex_combination (map (fun w => w / rsum ws) ws) (corner_points d)).
  pose proof (edges_valid d Hd) as Hvalid.
  assert (Hnd : NoDup (map fst (edges d))) by (rewrite firsts_edges; apply seq_NoDup).
  destruct (foldM_edge_rows d [fst c; snd c] (edges d) (zeros d) eq_refl
              (square_zeros d) Hvalid Hnd) as (e & He & Hsq & _ & Hrows).
  exists e. split; [|split; [assumption|]].
  - rewrite baryedges_fin_eq by (try assumption; unfold d in *; lia).
    exact He.
  - apply Forall_forall. intros row Hrow.
    apply In_nth_error in Hrow. destruct Hrow as (i & Hi).
    assert (Hlt : (i < d)%nat).
    { destruct Hsq as [Le _]. rewrite <- Le.
      apply nth_error_Some. intros Hn.
      pose proof (eq_trans (eq_sym Hi) Hn) as Habs. discriminate Habs. }
    destruct (edge_of_row d i Hlt) as (i2 & Hin).
    assert (Hz : nth_error (zeros d) i = Some (repeat (Fin 0) d))
      by (unfold zeros; now apply nth_error_repeat).
    pose proof (eq_trans (eq_sym Hi) (Hrows i i2 _ Hin Hz)) as E.
    injection E as ->. apply finite_row.
Qed.

Lemma moderate_projection (d i1 i2 : nat) (px py : R) :
  (i1 < d)%nat -> (i2 < d)%nat -> i1 <> i2 ->
  project_pointline (fin [px; py]) (fin (rcorner d i1)) (fin (rcorner d i2)) =
    Returns (fin (line_projection [px; py] (rcorner d i1) (rcorner d i2))).
Proof.
  intros H1 H2 Hne. apply project_pointline_fin; try reflexivity.
  now apply chord2_neq_0.
Qed.

(** C10. For every d >= 2: (1) on every input of length d, baryedges runs
    its loop over the pairs [edges d] with the corners of polycorners(d),
    and each iteration passes corners[i1] and corners[i2] to
    project_pointline; (2) for each of these pairs the two corners exist and
    differ, the denominator dot(b - a, b - a) is a finite nonzero number,
    and project_pointline returns the finite point a + t (b - a) for every
    point of moderate size; (3) on every coordinate with non-negative
    weights and a positive sum of at most 2^1023, baryedges returns a
    d x d matrix all of whose entries are finite (no division produced nan
    or an infinity). *)
Theorem baryedges_endpoints_distinct (d : nat) :
  (2 <= d)%nat ->
  exists corners,
    polycorners d = Returns corners /\
    (forall coords : vec,
       length coords = d ->
       baryedges coords =
         (c <- bary2cart (Arr1 coords) (Some corners) ;;
          match c with
          | Arr1 cart => foldM (edge_step cart corners) (edges d) (zeros d)
          | Arr2 _ => Raises ValueError
          end)) /\
    (forall (cart : vec) (e : matrix) (i1 i2 : nat),
       edge_step cart corners e (i1, i2) =
         (a <- getitem corners i1 ;;
          b <- getitem corners i2 ;;
          proj <- project_pointline cart a b ;;
          da <- vsub a proj ;;
          db <- vsub b proj ;;
          let distances := [norm2 da; norm2 db] in
          let vals := map (fsub (np_sum distances)) distances in
          row <- getitem e i1 ;;
          v0 <- getitem vals 0 ;;
          row <- setitem row i1 v0 ;;
          v1 <- getitem vals 1 ;;
          row <- setitem row i2 v1 ;;
          setitem e i1 row)) /\
    (forall i1 i2, In (i1, i2) (edges d) ->
       exists (a b : list R) (den : R),
         getitem corners i1 = Returns (fin a) /\
         getitem corners i2 = Returns (fin b) /\
         fin a <> fin b /\
         (ba <- vsub (fin b) (fin a) ;; np_dot ba ba) = Returns (Fin den) /\
         den <> 0 /\
         forall px py, moderate px -> moderate py ->
           project_pointline (fin [px; py]) (fin a) (fin b) =
             Returns (fin (line_projection [px; py] a b))) /\
    (forall ws : list R,
       length ws = d -> Forall (fun w => 0 <= w) ws ->
       0 < rsum ws -> rsum ws <= sum_max ->
       exists e,
         baryedges (fin ws) = Returns e /\
         square d e /\
         Forall (Forall finite) e).
Proof.
  intros Hd. exists (map (corner d) (range d)).
  split; [apply polycorners_eq|].
  split.
  { intros coords Hl. unfold baryedges. rewrite Hl, polycorners_eq. reflexivity. }
  split; [reflexivity|].
  split.
  - intros i1 i2 Hin.
    pose proof (edges_valid d Hd) as Hv. rewrite Forall_forall in Hv.
    destruct (Hv _ Hin) as (H1 & H2 & Hne). cbn [fst snd] in *.
    pose proof (chord2_pos d i1 i2 H1 H2 Hne) as Hpos.
    exists (rcorner d i1), (rcorner d i2), (chord2 d i1 i2).
    rewrite !getitem_corner by assumption.
    split; [reflexivity|]. split; [reflexivity|].
    split.
    + intros E. unfold fin, rcorner in E. cbn [map] in E.
      injection E as Ex Ey. unfold chord2 in Hpos. rewrite Ex, Ey in Hpos. lra.
    + split.
      * rewrite vsub_fin by reflexivity. cbn [bind].
        rewrite np_dot_fin by reflexivity. now rewrite rdot_rcorner.
      * split; [lra|]. intros px py _ _. now apply moderate_projection.
  - intros ws Hl Hpos Hs _. subst d.
    apply baryedges_entries_finite; [assumption|lra].
Qed.

Lemma baryedges_endpoints_distinct_witness :
  exists e,
    baryedges (fin [1; 2; 1]) = Returns e /\
    square 3 e /\
    Forall (Forall finite) e.
Proof.
  destruct (baryedges_endpoints_distinct 3 ltac:(lia))
    as (corners & _ & _ & _ & _ & H).
  apply (H [1; 2; 1]).
  - reflexivity.
  - repeat constructor; lra.
  - cbn. lra.
  - pose proof four_le_sum_max. cbn. lra.
Defined.
